(** * Sepsis-3 evaluation notebook (appendix/sepsis-3-angus-on-time.ipynb)

    Shallow embedding of the notebook's rule evaluator and of the metric
    calls it makes: scikit-learn's [metrics.accuracy_score],
    [metrics.roc_curve] and [metrics.auc] (the notebook imports
    [sklearn.cross_validation], so the library is a release up to 0.19,
    whose code is embedded here), and the repository's [su.print_cm] and
    [su.print_op_stats] (package [sepsis_utils], not in src/, modelled from
    the spec).

    Scores are integers ([Z]); rates and areas are exact rationals ([Q]);
    NumPy's NaN is the constructor [NaN] of [num]. *)

From Stdlib Require Import List Bool ZArith QArith Lia Lqa Permutation Sorted.
Import ListNotations.

(** ** Values and errors *)

(** A float of the computation: a finite value or NaN. *)
Inductive num : Type :=
| Num (q : Q)
| NaN.

(** The exceptions raised by the embedded calls. *)
Inductive error : Type :=
| InconsistentLength  (* ValueError of check_consistent_length / broadcasting *)
| EmptyInput          (* print_cm on empty vectors (spec) *)
| IndexError          (* NumPy indexing into an empty array *)
| TooFewPoints        (* auc: x.shape[0] < 2 *)
| NotIncreasing.      (* auc: x neither increasing nor decreasing *)

Inductive result (A : Type) : Type :=
| Ok (a : A)
| Err (e : error).
Arguments Ok {A} a.
Arguments Err {A} e.

Definition bind {A B} (r : result A) (k : A -> result B) : result B :=
  match r with Ok a => k a | Err e => Err e end.

(** ** The cohort table *)

(** One row of [df = su.get_data(exclusions=excl)], restricted to the
    columns the notebook reads. *)
Record cohort_row : Type := mk_row {
  qsofa : Z;
  sofa : Z;
  sirs : Z;
  lods : Z;
  angus : Z;
  sepsis3 : bool
}.

Definition cohort := list cohort_row.

(** [df[target_header].values == 1] with [target_header = "angus"]. *)
Definition outcome_y (df : cohort) : list bool :=
  map (fun r => Z.eqb (angus r) 1) df.

(** [v >= 2] on an integer column. *)
Definition ge2 (v : list Z) : list bool := map (fun x => Z.leb 2 x) v.

(** NumPy's elementwise [&] on two boolean arrays, with broadcasting of a
    length-one operand; other shape mismatches raise. *)
Definition np_and (a b : list bool) : result (list bool) :=
  if Nat.eqb (length a) (length b) then
    Ok (map (fun '(x, z) => andb x z) (combine a b))
  else match a, b with
       | [x], _ => Ok (map (andb x) b)
       | _, [z] => Ok (map (fun x => andb x z) a)
       | _, _ => Err InconsistentLength
       end.

(** Cell 5: [yhat = (df.qsofa.values >= 2) & (df.sofa.values>=2)]. *)
Definition yhat (df : cohort) : result (list bool) :=
  np_and (ge2 (map qsofa df)) (ge2 (map sofa df)).

(** ** Metric reporter *)

(** Number of positions where truth is [t] and prediction is [p]. *)
Definition count_pair (t p : bool) (y_true y_pred : list bool) : nat :=
  length (filter (fun '(a, b) => Bool.eqb a t && Bool.eqb b p)
                 (combine y_true y_pred)).

(** Modelled from the spec: [su.print_cm] (repository package
    sepsis_utils, not in src/).  The spec's contract
    [confusion_matrix(y_true, y_pred) -> (tp, fp, fn, tn)] with
    tp = count(y_true=1 and y_pred=1) and so on; it fails on a length
    mismatch and on empty vectors. *)
Definition print_cm (y_true y_pred : list bool) : result (nat * nat * nat * nat) :=
  if negb (Nat.eqb (length y_true) (length y_pred)) then Err InconsistentLength
  else if Nat.eqb (length y_true) 0 then Err EmptyInput
  else Ok (count_pair true true y_true y_pred,
           count_pair false true y_true y_pred,
           count_pair true false y_true y_pred,
           count_pair false false y_true y_pred).

Definition count_true (s : list bool) : nat := length (filter (fun b => b) s).

(** [np.average(sample_score)] of a boolean array: the mean, NaN on an
    empty array (NumPy's "Mean of empty slice"). *)
Definition np_average (s : list bool) : num :=
  match length s with
  | O => NaN
  | n => Num (inject_Z (Z.of_nat (count_true s)) / inject_Z (Z.of_nat n))
  end.

(** [metrics.accuracy_score(y_true, y_pred)] (normalize=True, no weights):
    [_check_targets] calls [check_consistent_length], then
    [score = y_true == y_pred] and [_weighted_sum] averages it. *)
Definition accuracy_score (y_true y_pred : list bool) : result num :=
  if negb (Nat.eqb (length y_true) (length y_pred)) then Err InconsistentLength
  else Ok (np_average (map (fun '(a, b) => Bool.eqb a b) (combine y_true y_pred))).

(** ** ROC curve and area (scikit-learn metrics/ranking.py) *)

(** Arithmetic on [num]: NaN propagates, comparisons with NaN are false. *)
Definition nadd (a b : num) : num :=
  match a, b with Num x, Num z => Num (x + z) | _, _ => NaN end.
Definition nsub (a b : num) : num :=
  match a, b with Num x, Num z => Num (x - z) | _, _ => NaN end.
Definition nmul (a b : num) : num :=
  match a, b with Num x, Num z => Num (x * z) | _, _ => NaN end.
Definition nhalf (a : num) : num :=
  match a with Num x => Num (x / 2) | NaN => NaN end.
Definition nneg (a : num) : num :=
  match a with Num x => Num (- x) | NaN => NaN end.
(** [d < 0] and [d <= 0]. *)
Definition nlt0 (a : num) : bool :=
  match a with Num x => negb (Qle_bool 0 x) | NaN => false end.
Definition nle0 (a : num) : bool :=
  match a with Num x => Qle_bool x 0 | NaN => false end.

(** Stable ascending insertion of a (score, label) pair: an element is
    placed before the first one whose score is not smaller, so equal scores
    keep their input order (as [np.argsort(kind="mergesort")]). *)
Fixpoint insert_asc (x : Z * bool) (l : list (Z * bool)) : list (Z * bool) :=
  match l with
  | [] => [x]
  | h :: t => if Z.leb (fst x) (fst h) then x :: h :: t else h :: insert_asc x t
  end.

Fixpoint sort_asc (l : list (Z * bool)) : list (Z * bool) :=
  match l with
  | [] => []
  | x :: t => insert_asc x (sort_asc t)
  end.

(** [desc_score_indices = np.argsort(y_score, kind="mergesort")[::-1]]
    applied to the zipped (y_score, y_true). *)
Definition sort_desc (l : list (Z * bool)) : list (Z * bool) := rev (sort_asc l).

(** A curve point before normalisation: (fps, tps, threshold). *)
Definition pt := (nat * nat * Z)%type.
Definition pt_fps (p : pt) : nat := fst (fst p).
Definition pt_tps (p : pt) : nat := snd (fst p).
Definition pt_thr (p : pt) : Z := snd p.

(** The body of [_binary_clf_curve] on the sorted pairs: walking down the
    scores with the running counts, a point is emitted at the last index of
    every run of equal scores ([distinct_value_indices =
    np.where(np.diff(y_score))[0]], plus [y_true.size - 1]);
    [tps = cumsum(y_true)[threshold_idxs]],
    [fps = 1 + threshold_idxs - tps], [thresholds = y_score[threshold_idxs]]. *)
Fixpoint clf_points (l : list (Z * bool)) (fp tp : nat) : list pt :=
  match l with
  | [] => []
  | (s, b) :: rest =>
      let tp' := if b then S tp else tp in
      let fp' := if b then fp else S fp in
      match rest with
      | [] => [(fp', tp', s)]
      | (s2, _) :: _ =>
          if Z.eqb s s2 then clf_points rest fp' tp'
          else (fp', tp', s) :: clf_points rest fp' tp'
      end
  end.

(** [_binary_clf_curve(y_true, y_score)] for a boolean [y_true]
    ([pos_label] defaults to 1 and every boolean vector passes the
    binary-classes check).  Indexing the cumulative sum of an empty array
    raises. *)
Definition binary_clf_curve (y_true : list bool) (y_score : list Z) : result (list pt) :=
  if negb (Nat.eqb (length y_true) (length y_score)) then Err InconsistentLength
  else match y_true with
       | [] => Err IndexError
       | _ => Ok (clf_points (sort_desc (combine y_score y_true)) 0 0)
       end.

(** [np.diff(fps, 2)] or [np.diff(tps, 2)] nonzero at the middle point. *)
Definition corner (p0 p1 p2 : pt) : bool :=
  negb (Nat.eqb (pt_fps p2 + pt_fps p0) (2 * pt_fps p1))
  || negb (Nat.eqb (pt_tps p2 + pt_tps p0) (2 * pt_tps p1)).

Fixpoint keep_corners (pts : list pt) : list pt :=
  match pts with
  | p0 :: ((p1 :: p2 :: _) as rest) =>
      if corner p0 p1 p2 then p1 :: keep_corners rest else keep_corners rest
  | _ => []
  end.

(** [if drop_intermediate and len(fps) > 2: optimal_idxs = np.where(np.r_[True,
    np.logical_or(np.diff(fps, 2), np.diff(tps, 2)), True])[0]]. *)
Definition drop_intermediate (pts : list pt) : list pt :=
  match pts with
  | p0 :: _ :: _ :: _ => p0 :: keep_corners pts ++ [last pts p0]
  | _ => pts
  end.

(** [if tps.size == 0 or fps[0] != 0:] prepend the point (0, 0) with
    threshold [thresholds[0] + 1] ("Add an extra threshold position if
    necessary"). *)
Definition add_start (pts : list pt) : result (list pt) :=
  match pts with
  | [] => Err IndexError
  | p :: _ =>
      if Nat.eqb (pt_fps p) 0 then Ok pts
      else Ok ((0%nat, 0%nat, (pt_thr p + 1)%Z) :: pts)
  end.

(** [x / d] as a float. *)
Definition ratio (x d : nat) : Q := Z.of_nat x # Pos.of_nat d.

(** [fpr = fps / fps[-1]], or [np.repeat(np.nan, fps.shape)] with an
    UndefinedMetricWarning when [fps[-1] <= 0]; the same for [tpr]. *)
Definition rates (v : list nat) : list num :=
  match last v 0%nat with
  | O => map (fun _ => NaN) v
  | d => map (fun x => Num (ratio x d)) v
  end.

(** [metrics.roc_curve(y_true, y_score)] with the default
    [drop_intermediate=True]; returns (fpr, tpr, thresholds). *)
Definition roc_curve (y_true : list bool) (y_score : list Z)
  : result (list num * list num * list Z) :=
  bind (binary_clf_curve y_true y_score) (fun pts0 =>
  bind (add_start (drop_intermediate pts0)) (fun pts =>
  Ok (rates (map pt_fps pts), rates (map pt_tps pts), map pt_thr pts))).

(** [np.diff(x)]. *)
Fixpoint diffs (x : list num) : list num :=
  match x with
  | x0 :: ((x1 :: _) as xt) => nsub x1 x0 :: diffs xt
  | _ => []
  end.

(** [np.trapz(y, x)]: the sum of [(x[i+1]-x[i]) * (y[i+1]+y[i]) / 2]. *)
Fixpoint trapz (y x : list num) : num :=
  match y, x with
  | y0 :: ((y1 :: _) as yt), x0 :: ((x1 :: _) as xt) =>
      nadd (nmul (nsub x1 x0) (nhalf (nadd y1 y0))) (trapz yt xt)
  | _, _ => Num 0%Q
  end.

(** [metrics.auc(x, y)] (reorder=False): consistent lengths, at least two
    points, and [x] monotonic (decreasing [x] flips the sign). *)
Definition auc (x y : list num) : result num :=
  if negb (Nat.eqb (length x) (length y)) then Err InconsistentLength
  else if Nat.ltb (length x) 2 then Err TooFewPoints
  else let dx := diffs x in
       if existsb nlt0 dx then
         if forallb nle0 dx then Ok (nneg (trapz y x)) else Err NotIncreasing
       else Ok (trapz y x).

(** [fpr, tpr, thresholds = metrics.roc_curve(y, s); metrics.auc(fpr, tpr)]
    as cell 9 chains them. *)
Definition roc_auc (y_true : list bool) (y_score : list Z) : result num :=
  bind (roc_curve y_true y_score) (fun '(fpr, tpr, _) => auc fpr tpr).

(** The area as the spec writes it:
    the sum over i of (fpr[i+1]-fpr[i]) * (tpr[i]+tpr[i+1]) / 2. *)
Fixpoint trapezoid_sum (fq tq : list Q) : Q :=
  match fq, tq with
  | f0 :: ((f1 :: _) as ft), t0 :: ((t1 :: _) as tt) =>
      (f1 - f0) * (t0 + t1) / 2 + trapezoid_sum ft tt
  | _, _ => 0
  end.

(** ** The notebook's metric calls *)

(** Modelled from the spec: [su.print_op_stats(yhat_all, y_all, ...)]
    (repository package sepsis_utils, not in src/).  The spec: the
    confusion-matrix tuple computed independently per rule against its
    truth vector, reported in the caller's rule order; a rule list and a
    truth list of different lengths are a dimension mismatch. *)
Fixpoint print_op_stats (yhat_all y_all : list (list bool))
  : result (list (nat * nat * nat * nat)) :=
  match yhat_all, y_all with
  | [], [] => Ok []
  | yh :: yhs, yt :: yts =>
      bind (print_cm yt yh) (fun c =>
      bind (print_op_stats yhs yts) (fun cs => Ok (c :: cs)))
  | _, _ => Err InconsistentLength
  end.

(** A boolean array used as a score: True is 1, False is 0. *)
Definition b2z (b : bool) : Z := if b then 1%Z else 0%Z.

(** Cell 10: [yhat_all = [df.qsofa.values >= 2, df.sofa.values >= 2,
    df.sepsis3.values, df.sirs.values >= 2, df.lods.values >= 2]]. *)
Definition yhat_all (df : cohort) : list (list bool) :=
  [ge2 (map qsofa df); ge2 (map sofa df); map sepsis3 df;
   ge2 (map sirs df); ge2 (map lods df)].

(** Cell 10: [y_all = [y, y, y, y, y]]. *)
Definition y_all (df : cohort) : list (list bool) :=
  let y := outcome_y df in [y; y; y; y; y].

(** The results of the joint metric calls of cells 5, 9 and 10. *)
Record notebook_run := {
  nb_accuracy : result num;
  nb_cm : result (nat * nat * nat * nat);
  nb_aucs : list (result num);
  nb_stats : result (list (nat * nat * nat * nat))
}.

(** Cell 5: [metrics.accuracy_score(y, yhat)] and [su.print_cm(y, yhat)];
    cell 9: [metrics.roc_curve(y, s)] then [metrics.auc(fpr, tpr)] for
    qSOFA, SOFA, the SEPSIS-3 rule, SIRS and LODS; cell 10:
    [su.print_op_stats(yhat_all, y_all, ...)]. *)
Definition notebook (df : cohort) : notebook_run :=
  let y := outcome_y df in
  {| nb_accuracy := bind (yhat df) (fun yh => accuracy_score y yh);
     nb_cm := bind (yhat df) (fun yh => print_cm y yh);
     nb_aucs := [roc_auc y (map qsofa df);
                 roc_auc y (map sofa df);
                 bind (np_and (ge2 (map qsofa df)) (ge2 (map sofa df)))
                      (fun v => roc_auc y (map b2z v));
                 roc_auc y (map sirs df);
                 roc_auc y (map lods df)];
     nb_stats := print_op_stats (yhat_all df) (y_all df) |}.

(** ** Cell 12: histograms of qSOFA by outcome *)

(** [v[m]] for a boolean mask [m]: the entries where the mask is True.
    A mask of another length raises IndexError. *)
Definition bool_index (v : list Z) (m : list bool) : result (list Z) :=
  if Nat.eqb (length v) (length m) then Ok (map fst (filter snd (combine v m)))
  else Err IndexError.

(** [xi = [-0.5,0.5,1.5,2.5,3.5]]. *)
Definition xi : list Q := [(-1) # 2; 1 # 2; 3 # 2; 5 # 2; 7 # 2].

(** [sa.searchsorted(e, 'left')] and [sa.searchsorted(e, 'right')] on the
    sorted values: the number of values below [e], and not above [e]. *)
Definition searchsorted_left (v : list Z) (e : Q) : nat :=
  length (filter (fun x => negb (Qle_bool e (inject_Z x))) v).
Definition searchsorted_right (v : list Z) (e : Q) : nat :=
  length (filter (fun x => Qle_bool (inject_Z x) e) v).

(** [cum_n = np.r_[sa.searchsorted(bins[:-1], 'left'),
    sa.searchsorted(bins[-1], 'right')]]. *)
Fixpoint cum_counts (v : list Z) (bins : list Q) : list Z :=
  match bins with
  | [] => []
  | [e] => [Z.of_nat (searchsorted_right v e)]
  | e :: rest => Z.of_nat (searchsorted_left v e) :: cum_counts v rest
  end.

(** [np.diff] on integers and on floats. *)
Fixpoint zdiff (l : list Z) : list Z :=
  match l with
  | a :: ((b :: _) as r) => (b - a)%Z :: zdiff r
  | _ => []
  end.
Fixpoint qdiff (l : list Q) : list Q :=
  match l with
  | a :: ((b :: _) as r) => (b - a) :: qdiff r
  | _ => []
  end.

Definition qsum (l : list Q) : Q := fold_right Qplus 0 l.

(** [np.histogram(a, bins)] for an explicit array of edges:
    [n = np.diff(cum_n)]; the last bin is closed. *)
Definition histogram_counts (v : list Z) (bins : list Q) : list Z :=
  zdiff (cum_counts v bins).

(** The [n] of [plt.hist(a, bins=xi, normed=True)]: with
    [db = np.diff(bins)], [m = (m.astype(float) / db) / m.sum()]
    (NumPy's [density=True] computes the same).  When every count is 0,
    every entry is 0/0, NaN. *)
Definition hist_normed (v : list Z) (bins : list Q) : list num :=
  let n := histogram_counts v bins in
  let tot := qsum (map inject_Z n) in
  if Qeq_bool tot 0 then map (fun _ => NaN) n
  else map (fun '(c, d) => Num (inject_Z c / d / tot)) (combine n (qdiff bins)).

(** [x / N] for the integer [N = len(y)]: NaN on NaN.  NumPy gives nan
    for 0/0 and an infinity for a nonzero value over 0; in cell 12 the
    value is a NaN whenever [N = 0], since both groups are then empty. *)
Definition ndiv_nat (x : num) (N : nat) : num :=
  match x, N with
  | Num q, S _ => Num (q / inject_Z (Z.of_nat N))
  | _, _ => NaN
  end.

(** The heights [100.0*n/N*group.shape[0]] of the bars. *)
Definition bars (n : list num) (N L : nat) : list num :=
  map (fun x => nmul (ndiv_nat (nmul (Num 100) x) N) (Num (inject_Z (Z.of_nat L)))) n.

(** Cell 12: [qsofa_alive = df.qsofa.values[~y]],
    [qsofa_dead = df.qsofa.values[y]], the normalised histograms [n0] and
    [n1] over [xi], and the heights of the two bar series of the second
    figure, with [N = len(y)]. *)
Definition cell12 (df : cohort) : result (list num * list num) :=
  let y := outcome_y df in
  bind (bool_index (map qsofa df) (map negb y)) (fun qsofa_alive =>
  bind (bool_index (map qsofa df) y) (fun qsofa_dead =>
  let N := length y in
  Ok (bars (hist_normed qsofa_alive xi) N (length qsofa_alive),
      bars (hist_normed qsofa_dead xi) N (length qsofa_dead)))).

(** ** Lemmas: the rule evaluator and the metric reporter *)

Lemma combine_map_same {A B C} (f : A -> B) (g : A -> C) (l : list A) :
  combine (map f l) (map g l) = map (fun x => (f x, g x)) l.
Proof. induction l as [|x l IH]; simpl; [reflexivity | now rewrite IH]. Qed.

Lemma count_pair_total (y p : list bool) :
  length y = length p ->
  (count_pair true true y p + count_pair false true y p
   + count_pair true false y p + count_pair false false y p)%nat = length y.
Proof.
  unfold count_pair.
  revert p; induction y as [|a y IH]; intros [|b p] H; simpl in *; try lia.
  specialize (IH p ltac:(lia)).
  destruct a, b; simpl; lia.
Qed.

Lemma count_true_agree (y p : list bool) :
  count_true (map (fun '(a, b) => Bool.eqb a b) (combine y p))
  = (count_pair true true y p + count_pair false false y p)%nat.
Proof.
  unfold count_true, count_pair.
  revert p; induction y as [|a y IH]; intros [|b p]; simpl; try reflexivity.
  specialize (IH p).
  destruct a, b; simpl; lia.
Qed.

Lemma count_pair_diag (y : list bool) :
  (count_pair true true y y + count_pair false false y y)%nat = length y.
Proof.
  unfold count_pair.
  induction y as [|a y IH]; simpl; [reflexivity|].
  destruct a; simpl; lia.
Qed.

Lemma frac_bounds (c n : nat) :
  (c <= n)%nat -> (0 < n)%nat ->
  0 <= inject_Z (Z.of_nat c) / inject_Z (Z.of_nat n) <= 1.
Proof.
  intros Hc Hn.
  assert (Hpos : 0 < inject_Z (Z.of_nat n)) by (unfold Qlt; simpl; lia).
  split.
  - apply Qle_shift_div_l; [exact Hpos|].
    rewrite Qmult_0_l. unfold Qle; simpl; lia.
  - apply Qle_shift_div_r; [exact Hpos|].
    rewrite Qmult_1_l. unfold Qle; simpl; lia.
Qed.

Lemma frac_self (n : nat) :
  (0 < n)%nat -> inject_Z (Z.of_nat n) / inject_Z (Z.of_nat n) == 1.
Proof.
  intros Hn. unfold Qdiv. apply Qmult_inv_r. unfold Qeq; simpl; lia.
Qed.

(** ** C1: the Sepsis-3 rule evaluator *)

(** C1. [yhat] yields one boolean per cohort record, in table order, and
    entry [i] is [qsofa >= 2 and sofa >= 2] of record [i]. *)
Theorem yhat_sepsis3_rule (df : cohort) :
  exists v, yhat df = Ok v /\ length v = length df /\
    forall i r, nth_error df i = Some r ->
      nth_error v i = Some (Z.leb 2 (qsofa r) && Z.leb 2 (sofa r)).
Proof.
  unfold yhat, np_and, ge2.
  rewrite !length_map, Nat.eqb_refl, !map_map.
  rewrite combine_map_same, map_map.
  eexists; split; [reflexivity|]; split.
  - apply length_map.
  - intros i r H. rewrite nth_error_map, H. reflexivity.
Qed.

(** ** C2: confusion-matrix counts *)

(** C2. For equal-length non-empty truth and prediction vectors the
    confusion matrix is computed and its four counts sum to the number of
    records; for predictions [1,0,1,0] and truth [1,1,0,0] it is
    (tp, fp, fn, tn) = (1, 1, 1, 1). *)
Theorem print_cm_counts_sum (y_true y_pred : list bool)
  (Hlen : length y_true = length y_pred) (Hne : y_true <> []) :
  (exists tp fp fn tn, print_cm y_true y_pred = Ok (tp, fp, fn, tn) /\
     (tp + fp + fn + tn)%nat = length y_true)
  /\ print_cm [true; true; false; false] [true; false; true; false]
     = Ok (1, 1, 1, 1)%nat.
Proof.
  split; [|reflexivity].
  pose proof (count_pair_total y_true y_pred Hlen) as Hsum.
  unfold print_cm. rewrite Hlen, Nat.eqb_refl. simpl.
  destruct y_pred as [|b p].
  - destruct y_true; [contradiction | discriminate].
  - simpl in *. do 4 eexists. split; [reflexivity|]. lia.
Qed.

Lemma print_cm_counts_sum_witness :
  length [true; false] = length [false; false] /\ [true; false] <> [] /\
  ((exists tp fp fn tn, print_cm [true; false] [false; false] = Ok (tp, fp, fn, tn) /\
     (tp + fp + fn + tn)%nat = length [true; false])
   /\ print_cm [true; true; false; false] [true; false; true; false]
      = Ok (1, 1, 1, 1)%nat).
Proof.
  split; [reflexivity|]. split; [discriminate|].
  apply print_cm_counts_sum; [reflexivity | discriminate].
Defined.

(** ** C3: accuracy *)

(** True positives and true negatives as the spec defines them. *)
Definition tp_count (y_true y_pred : list bool) : nat := count_pair true true y_true y_pred.
Definition tn_count (y_true y_pred : list bool) : nat := count_pair false false y_true y_pred.

(** C3. For equal-length non-empty vectors [accuracy_score] returns
    (tp + tn) / n, a value in [0, 1] that is 1 when the predictions equal
    the truth. *)
Theorem accuracy_score_value (y_true y_pred : list bool)
  (Hlen : length y_true = length y_pred) (Hne : length y_true <> O) :
  exists a, accuracy_score y_true y_pred = Ok (Num a) /\
    a == inject_Z (Z.of_nat (tp_count y_true y_pred + tn_count y_true y_pred))
         / inject_Z (Z.of_nat (length y_true)) /\
    0 <= a <= 1 /\
    (y_pred = y_true -> a == 1).
Proof.
  pose proof (count_pair_total y_true y_pred Hlen) as Hsum.
  unfold accuracy_score. rewrite Hlen, Nat.eqb_refl. simpl.
  unfold np_average.
  rewrite length_map, length_combine, <- Hlen, Nat.min_id.
  destruct (length y_true) as [|n] eqn:Hn; [contradiction|].
  eexists; split; [reflexivity|].
  rewrite count_true_agree. unfold tp_count, tn_count.
  assert (Hle : (count_pair true true y_true y_pred
                 + count_pair false false y_true y_pred <= S n)%nat)
    by lia.
  split; [reflexivity|]. split.
  - apply frac_bounds; lia.
  - intros ->. rewrite count_pair_diag, Hn. apply frac_self. lia.
Qed.

Lemma accuracy_score_value_witness :
  length [true; false] = length [true; true] /\ length [true; false] <> O /\
  exists a, accuracy_score [true; false] [true; true] = Ok (Num a) /\
    a == inject_Z (Z.of_nat (tp_count [true; false] [true; true]
                             + tn_count [true; false] [true; true]))
         / inject_Z (Z.of_nat (length [true; false])) /\
    0 <= a <= 1 /\
    ([true; true] = [true; false] -> a == 1).
Proof.
  split; [reflexivity|]. split; [discriminate|].
  apply accuracy_score_value; [reflexivity | discriminate].
Defined.

(** ** Lemmas: lists, sorting and the points of [_binary_clf_curve] *)

Section ListFacts.
Context {A : Type}.

Lemma SS_app_single (R : A -> A -> Prop) (l : list A) (a : A) :
  StronglySorted R l -> (forall x, In x l -> R x a) -> StronglySorted R (l ++ [a]).
Proof.
  induction l as [|x l IH]; intros Hs Ha; simpl.
  - repeat constructor.
  - apply StronglySorted_inv in Hs as [Hs Hf].
    constructor.
    + apply IH; [exact Hs | intros z Hz; apply Ha; now right].
    + apply Forall_app; split; [exact Hf|].
      constructor; [apply Ha; now left | constructor].
Qed.

Lemma SS_rev (R : A -> A -> Prop) (l : list A) :
  StronglySorted R l -> StronglySorted (fun a b => R b a) (rev l).
Proof.
  induction l as [|x l IH]; intros Hs; simpl; [constructor|].
  apply StronglySorted_inv in Hs as [Hs Hf].
  apply SS_app_single; [now apply IH|].
  intros z Hz. apply in_rev in Hz. rewrite Forall_forall in Hf. now apply Hf.
Qed.

Lemma SS_map {B} (R : A -> A -> Prop) (S : B -> B -> Prop) (f : A -> B) (l : list A) :
  (forall x y, R x y -> S (f x) (f y)) ->
  StronglySorted R l -> StronglySorted S (map f l).
Proof.
  intros Hf; induction l as [|x l IH]; intros Hs; simpl; [constructor|].
  apply StronglySorted_inv in Hs as [Hs Hx].
  constructor; [now apply IH|].
  apply Forall_map. eapply Forall_impl; [|exact Hx]. intros y; apply Hf.
Qed.

Lemma SS_weaken (R S : A -> A -> Prop) (l : list A) :
  (forall x y, R x y -> S x y) -> StronglySorted R l -> StronglySorted S l.
Proof.
  intros H Hs. rewrite <- (map_id l). eapply SS_map; [exact H | exact Hs].
Qed.

Lemma Permutation_filter_length (f : A -> bool) (l l' : list A) :
  Permutation l l' -> length (filter f l) = length (filter f l').
Proof.
  induction 1 as [| x l l' _ IH | x y l | l l' l'' _ IH1 _ IH2]; simpl.
  - reflexivity.
  - destruct (f x); simpl; lia.
  - destruct (f x), (f y); simpl; lia.
  - lia.
Qed.

(** Order-preserving sublists. *)
Inductive subseq : list A -> list A -> Prop :=
| subseq_nil : subseq [] []
| subseq_skip x l1 l2 : subseq l1 l2 -> subseq l1 (x :: l2)
| subseq_keep x l1 l2 : subseq l1 l2 -> subseq (x :: l1) (x :: l2).

Lemma subseq_refl (l : list A) : subseq l l.
Proof. induction l; constructor; assumption. Qed.

Lemma subseq_In (l1 l2 : list A) x : subseq l1 l2 -> In x l1 -> In x l2.
Proof.
  induction 1 as [| y l1 l2 _ IH | y l1 l2 _ IH]; simpl; intros Hx;
    [exact Hx | right; auto | ].
  destruct Hx as [->|Hx]; [now left | right; auto].
Qed.

Lemma subseq_SS (R : A -> A -> Prop) (l1 l2 : list A) :
  subseq l1 l2 -> StronglySorted R l2 -> StronglySorted R l1.
Proof.
  induction 1 as [| x l1 l2 _ IH | x l1 l2 Hsub IH]; intros Hs.
  - constructor.
  - apply StronglySorted_inv in Hs as [Hs _]. auto.
  - apply StronglySorted_inv in Hs as [Hs Hf]. constructor; [auto|].
    rewrite Forall_forall in *. intros z Hz. apply Hf. eapply subseq_In; eauto.
Qed.

Lemma last_cons2 (x y : A) (l : list A) (d : A) :
  last (x :: y :: l) d = last (y :: l) d.
Proof. reflexivity. Qed.

Lemma last_In (l : list A) (d : A) : l <> [] -> In (last l d) l.
Proof.
  induction l as [|x [|y l] IH]; intros H; [contradiction | now left |].
  rewrite last_cons2. right. apply IH. discriminate.
Qed.

End ListFacts.

(** Number of negative and positive records among (score, label) pairs. *)
Definition negs (l : list (Z * bool)) : nat := length (filter (fun e => negb (snd e)) l).
Definition poss (l : list (Z * bool)) : nat := length (filter (fun e => snd e) l).

Definition score_le (a b : Z * bool) : Prop := (fst a <= fst b)%Z.

Lemma insert_asc_perm x l : Permutation (insert_asc x l) (x :: l).
Proof.
  induction l as [|h t IH]; simpl; [reflexivity|].
  destruct (Z.leb (fst x) (fst h)); [reflexivity|].
  rewrite IH. apply perm_swap.
Qed.

Lemma sort_asc_perm l : Permutation (sort_asc l) l.
Proof.
  induction l as [|x t IH]; simpl; [reflexivity|].
  rewrite insert_asc_perm. now apply perm_skip.
Qed.

Lemma sort_desc_perm l : Permutation (sort_desc l) l.
Proof.
  unfold sort_desc. rewrite <- (sort_asc_perm l) at 2. symmetry. apply Permutation_rev.
Qed.

Lemma insert_asc_sorted x l :
  StronglySorted score_le l -> StronglySorted score_le (insert_asc x l).
Proof.
  induction l as [|h t IH]; intros Hs; simpl.
  - repeat constructor.
  - apply StronglySorted_inv in Hs as [Ht Hh].
    destruct (Z.leb (fst x) (fst h)) eqn:E.
    + apply Z.leb_le in E. constructor; [constructor; assumption|].
      constructor; [exact E|]. rewrite Forall_forall in *.
      intros z Hz. unfold score_le in *. specialize (Hh z Hz). lia.
    + apply Z.leb_gt in E. constructor; [now apply IH|].
      rewrite Forall_forall in *. intros z Hz.
      apply (Permutation_in _ (insert_asc_perm x t)) in Hz.
      destruct Hz as [<-|Hz]; [unfold score_le; lia | now apply Hh].
Qed.

Lemma sort_asc_sorted l : StronglySorted score_le (sort_asc l).
Proof.
  induction l as [|x t IH]; simpl; [constructor | now apply insert_asc_sorted].
Qed.

Lemma sort_desc_sorted l :
  StronglySorted (fun a b => score_le b a) (sort_desc l).
Proof. apply SS_rev, sort_asc_sorted. Qed.

Lemma negs_perm l l' : Permutation l l' -> negs l = negs l'.
Proof. apply Permutation_filter_length. Qed.
Lemma poss_perm l l' : Permutation l l' -> poss l = poss l'.
Proof. apply Permutation_filter_length. Qed.

Lemma negs_combine (s : list Z) (y : list bool) :
  length s = length y -> negs (combine s y) = length (filter negb y).
Proof.
  unfold negs; revert y; induction s as [|a s IH]; intros [|b y] H; simpl in *; try lia.
  destruct b; simpl; rewrite IH; lia.
Qed.

Lemma poss_combine (s : list Z) (y : list bool) :
  length s = length y -> poss (combine s y) = length (filter (fun b => b) y).
Proof.
  unfold poss; revert y; induction s as [|a s IH]; intros [|b y] H; simpl in *; try lia.
  destruct b; simpl; rewrite IH; lia.
Qed.

Lemma negs_cons s b l : negs ((s, b) :: l) = ((if b then 0 else 1) + negs l)%nat.
Proof. unfold negs; destruct b; reflexivity. Qed.
Lemma poss_cons s b l : poss ((s, b) :: l) = ((if b then 1 else 0) + poss l)%nat.
Proof. unfold poss; destruct b; reflexivity. Qed.

(** Componentwise order of curve points, and its strict version in which
    at least one more record has been passed. *)
Definition pt_le (a b : pt) : Prop :=
  (pt_fps a <= pt_fps b /\ pt_tps a <= pt_tps b)%nat.
Definition pt_lt (a b : pt) : Prop :=
  pt_le a b /\ (pt_fps a + pt_tps a < pt_fps b + pt_tps b)%nat.
Definition thr_gt (a b : pt) : Prop := (pt_thr b < pt_thr a)%Z.

Lemma clf_points_cons2 s b s2 b2 r fp tp :
  clf_points ((s, b) :: (s2, b2) :: r) fp tp =
  if Z.eqb s s2
  then clf_points ((s2, b2) :: r) (if b then fp else S fp) (if b then S tp else tp)
  else ((if b then fp else S fp), (if b then S tp else tp), s)
       :: clf_points ((s2, b2) :: r) (if b then fp else S fp) (if b then S tp else tp).
Proof. reflexivity. Qed.

Ltac clf_step :=
  unfold pt_lt, pt_le, thr_gt, pt_fps, pt_tps, pt_thr in *; simpl in *; lia.

Lemma clf_bounds l : forall fp tp x, In x (clf_points l fp tp) ->
  (fp <= pt_fps x /\ tp <= pt_tps x /\ fp + tp < pt_fps x + pt_tps x /\
   pt_fps x <= fp + negs l /\ pt_tps x <= tp + poss l)%nat.
Proof.
  induction l as [|[s b] rest IH]; intros fp tp x Hx; [contradiction|].
  rewrite negs_cons, poss_cons.
  destruct rest as [|[s2 b2] r].
  - destruct b; simpl in Hx; destruct Hx as [<-|[]]; clf_step.
  - rewrite clf_points_cons2 in Hx. destruct (Z.eqb s s2).
    + apply IH in Hx. destruct b; clf_step.
    + destruct Hx as [<-|Hx]; [| apply IH in Hx]; destruct b; clf_step.
Qed.

Lemma clf_sorted l : forall fp tp, StronglySorted pt_lt (clf_points l fp tp).
Proof.
  induction l as [|[s b] rest IH]; intros fp tp; [constructor|].
  destruct rest as [|[s2 b2] r]; [repeat constructor|].
  rewrite clf_points_cons2. destruct (Z.eqb s s2); [apply IH|].
  constructor; [apply IH|].
  apply Forall_forall. intros x Hx. apply clf_bounds in Hx. destruct b; clf_step.
Qed.

Lemma last_cons_ne {A} (a : A) (l : list A) (d : A) :
  l <> [] -> last (a :: l) d = last l d.
Proof. destruct l; [contradiction | reflexivity]. Qed.

Lemma last_default {A} (l : list A) (d1 d2 : A) :
  l <> [] -> last l d1 = last l d2.
Proof.
  induction l as [|x [|y l] IH]; intros H; [contradiction | reflexivity |].
  rewrite !last_cons2. apply IH. discriminate.
Qed.

Lemma clf_last l : forall fp tp d, l <> [] ->
  clf_points l fp tp <> [] /\
  pt_fps (last (clf_points l fp tp) d) = (fp + negs l)%nat /\
  pt_tps (last (clf_points l fp tp) d) = (tp + poss l)%nat.
Proof.
  induction l as [|[s b] rest IH]; intros fp tp d Hne; [contradiction|].
  rewrite negs_cons, poss_cons.
  destruct rest as [|[s2 b2] r].
  - destruct b; simpl; (split; [discriminate|]); unfold pt_fps, pt_tps, negs, poss; simpl; lia.
  - rewrite clf_points_cons2.
    destruct (IH (if b then fp else S fp) (if b then S tp else tp) d
                 ltac:(discriminate)) as [Hn [Hf Ht]].
    destruct (Z.eqb s s2).
    + split; [exact Hn|]. destruct b; clf_step.
    + rewrite last_cons_ne by exact Hn.
      split; [discriminate|]. destruct b; clf_step.
Qed.

Lemma clf_thr_in l : forall fp tp x, In x (clf_points l fp tp) ->
  exists e, In e l /\ pt_thr x = fst e.
Proof.
  induction l as [|[s b] rest IH]; intros fp tp x Hx; [contradiction|].
  destruct rest as [|[s2 b2] r].
  - simpl in Hx. destruct Hx as [<-|[]]. exists (s, b). split; [now left | reflexivity].
  - rewrite clf_points_cons2 in Hx. destruct (Z.eqb s s2).
    + apply IH in Hx as [e [He Hx]]. exists e. split; [now right | exact Hx].
    + destruct Hx as [<-|Hx].
      * exists (s, b). split; [now left | reflexivity].
      * apply IH in Hx as [e [He Hx]]. exists e. split; [now right | exact Hx].
Qed.

Lemma clf_thr_sorted l : forall fp tp,
  StronglySorted (fun a b => score_le b a) l ->
  StronglySorted thr_gt (clf_points l fp tp).
Proof.
  induction l as [|[s b] rest IH]; intros fp tp Hs; [constructor|].
  apply StronglySorted_inv in Hs as [Hr Hh].
  destruct rest as [|[s2 b2] r]; [repeat constructor|].
  rewrite clf_points_cons2. destruct (Z.eqb s s2) eqn:E; [now apply IH|].
  apply Z.eqb_neq in E.
  constructor; [now apply IH|].
  apply Forall_forall. intros x Hx. apply clf_thr_in in Hx as [e [He Hx]].
  apply StronglySorted_inv in Hr as [_ Hr2].
  rewrite Forall_forall in Hh, Hr2.
  assert (H2 : score_le (s2, b2) (s, b)) by (apply Hh; now left).
  assert (He2 : score_le e (s2, b2)).
  { destruct He as [<-|He]; [unfold score_le; lia | now apply Hr2]. }
  unfold thr_gt, score_le in *; simpl in *. lia.
Qed.

(** [drop_intermediate] keeps an order-preserving sublist with the same
    first and last point. *)
Lemma keep_corners_subseq l d :
  (2 <= length l)%nat -> subseq (keep_corners l ++ [last l d]) (tl l).
Proof.
  induction l as [|p0 l IH]; intros Hl; [simpl in Hl; lia|].
  destruct l as [|p1 [|p2 r]]; [simpl in Hl; lia | simpl; apply subseq_refl |].
  change (keep_corners (p0 :: p1 :: p2 :: r))
    with (if corner p0 p1 p2 then p1 :: keep_corners (p1 :: p2 :: r)
          else keep_corners (p1 :: p2 :: r)).
  rewrite last_cons2. simpl tl.
  specialize (IH ltac:(simpl; lia)). simpl tl in IH.
  destruct (corner p0 p1 p2); simpl; constructor; exact IH.
Qed.

Lemma drop_subseq pts : subseq (drop_intermediate pts) pts.
Proof.
  destruct pts as [|p0 [|p1 [|p2 r]]]; try apply subseq_refl.
  unfold drop_intermediate. apply subseq_keep.
  apply (keep_corners_subseq (p0 :: p1 :: p2 :: r) p0). simpl; lia.
Qed.

Lemma drop_shape pts d :
  pts <> [] ->
  drop_intermediate pts <> [] /\
  hd d (drop_intermediate pts) = hd d pts /\
  last (drop_intermediate pts) d = last pts d /\
  (2 <= length pts -> 2 <= length (drop_intermediate pts))%nat.
Proof.
  intros Hne.
  destruct pts as [|p0 [|p1 [|p2 r]]]; [contradiction | | |];
    [repeat split; auto .. |].
  unfold drop_intermediate. split; [discriminate|]. split; [reflexivity|].
  split.
  - rewrite app_comm_cons, last_last. apply last_default. discriminate.
  - intros _. simpl. rewrite length_app. simpl. lia.
Qed.

Lemma add_start_shape pts d :
  pts <> [] ->
  exists pts', add_start pts = Ok pts' /\ pts' <> [] /\
    pt_fps (hd d pts') = O /\ last pts' d = last pts d /\
    (StronglySorted pt_le pts -> StronglySorted pt_le pts') /\
    (StronglySorted thr_gt pts -> StronglySorted thr_gt pts') /\
    ((pts' = pts /\ pt_fps (hd d pts) = O) \/
     (pts' = (0%nat, 0%nat, (pt_thr (hd d pts) + 1)%Z) :: pts /\ pt_fps (hd d pts) <> O)).
Proof.
  destruct pts as [|p r]; intros Hne; [contradiction|].
  unfold add_start. destruct (Nat.eqb (pt_fps p) 0) eqn:E.
  - apply Nat.eqb_eq in E. eexists; split; [reflexivity|].
    repeat split; auto; discriminate.
  - apply Nat.eqb_neq in E. eexists; split; [reflexivity|].
    split; [discriminate|]. split; [reflexivity|]. split; [reflexivity|].
    split; [|split].
    + intros Hs. constructor; [exact Hs|].
      apply Forall_forall. intros x _. clf_step.
    + intros Hs. constructor; [exact Hs|].
      apply StronglySorted_inv in Hs as [_ Hf]. rewrite Forall_forall in Hf.
      apply Forall_forall. intros x [<-|Hx]; [clf_step|].
      specialize (Hf x Hx). clf_step.
    + right. split; [reflexivity | exact E].
Qed.

(** A default point. *)
Definition pt0 : pt := (0%nat, 0%nat, 0%Z).

(** ** Lemmas: a perfectly separating score *)

(** Every positive record scores strictly higher than every negative one. *)
Definition separates (l : list (Z * bool)) : Prop :=
  forall p n, In p l -> In n l -> snd p = true -> snd n = false -> (fst n < fst p)%Z.

Lemma separates_cons e l : separates (e :: l) -> separates l.
Proof. intros H p n Hp Hn. apply H; now right. Qed.

Lemma separated_split (l : list (Z * bool)) :
  StronglySorted (fun a b => score_le b a) l -> separates l ->
  l = filter snd l ++ filter (fun e => negb (snd e)) l.
Proof.
  induction l as [|[s b] l IH]; intros Hs Hsep; [reflexivity|].
  apply StronglySorted_inv in Hs as [Hs Hf].
  specialize (IH Hs (separates_cons _ _ Hsep)).
  destruct b; simpl.
  - f_equal. exact IH.
  - assert (Hnil : filter snd l = []).
    { destruct (filter snd l) as [|p r] eqn:E; [reflexivity|].
      assert (Hp : In p (filter snd l)) by (rewrite E; now left).
      apply filter_In in Hp as [Hp Hb].
      rewrite Forall_forall in Hf. specialize (Hf p Hp).
      specialize (Hsep p (s, false) (or_intror Hp) (or_introl eq_refl) Hb eq_refl).
      unfold score_le in Hf. simpl in *. lia. }
    rewrite Hnil in IH |- *. simpl in IH |- *. rewrite <- IH. reflexivity.
Qed.

Lemma clf_split_point (L1 L2 : list (Z * bool)) : forall fp tp,
  L1 <> [] -> L2 <> [] -> Forall (fun e => snd e = true) L1 ->
  (forall a b, In a L1 -> In b L2 -> (fst b < fst a)%Z) ->
  exists x, In x (clf_points (L1 ++ L2) fp tp) /\
    pt_fps x = fp /\ pt_tps x = (tp + length L1)%nat.
Proof.
  induction L1 as [|[s b] L1 IH]; intros fp tp H1 H2 Hpos Hsep; [contradiction|].
  apply Forall_cons_iff in Hpos as [Hb Hpos]. simpl in Hb; subst b.
  destruct L1 as [|e L1'].
  - destruct L2 as [|[s2 b2] r]; [contradiction|].
    simpl app. rewrite clf_points_cons2.
    assert (Hlt : (s2 < s)%Z) by (apply (Hsep (s, true) (s2, b2)); now left).
    destruct (Z.eqb_spec s s2); [lia|].
    eexists; split; [now left|]. clf_step.
  - destruct (IH fp (S tp) ltac:(discriminate) H2 Hpos
                (fun a b Ha Hb => Hsep a b (or_intror Ha) Hb)) as [x [Hx [Hf Ht]]].
    simpl app. destruct e as [s1 b1]. simpl app in Hx.
    rewrite clf_points_cons2.
    exists x. split; [destruct (Z.eqb s s1); [exact Hx | now right] |].
    split; [exact Hf|]. rewrite Ht. simpl. lia.
Qed.

Lemma SS_app_r {A} (R : A -> A -> Prop) (l1 l2 : list A) :
  StronglySorted R (l1 ++ l2) -> StronglySorted R l2.
Proof.
  induction l1 as [|a l1 IH]; intros H; [exact H|].
  apply StronglySorted_inv in H as [H _]. auto.
Qed.

Lemma SS_head {A} (R : A -> A -> Prop) (a z : A) (l : list A) :
  StronglySorted R (a :: l) -> In z l -> R a z.
Proof.
  intros H Hz. apply StronglySorted_inv in H as [_ H].
  rewrite Forall_forall in H. auto.
Qed.

Lemma keep_corners_cons_In (a x : pt) (l : list pt) :
  (2 <= length l)%nat -> In x (keep_corners l) -> In x (keep_corners (a :: l)).
Proof.
  intros Hl Hx. destruct l as [|q1 [|q2 r]]; [simpl in Hl; lia | simpl in Hl; lia |].
  change (keep_corners (a :: q1 :: q2 :: r))
    with (if corner a q1 q2 then q1 :: keep_corners (q1 :: q2 :: r)
          else keep_corners (q1 :: q2 :: r)).
  destruct (corner a q1 q2); [now right | exact Hx].
Qed.

Lemma keep_corners_In (A B : list pt) (u x w : pt) :
  corner u x w = true -> In x (keep_corners (A ++ u :: x :: w :: B)).
Proof.
  intros Hc. induction A as [|a A IH].
  - simpl app.
    change (keep_corners (u :: x :: w :: B))
      with (if corner u x w then x :: keep_corners (x :: w :: B)
            else keep_corners (x :: w :: B)).
    rewrite Hc. now left.
  - simpl app. apply keep_corners_cons_In; [|exact IH].
    rewrite length_app. simpl. lia.
Qed.

(** The point (0, P), P the maximal tps, is never dropped: it is the first
    point, the last one, or a corner. *)
Lemma drop_keeps_top (pts : list pt) (x : pt) :
  StronglySorted pt_lt pts -> In x pts -> pt_fps x = O ->
  (forall z, In z pts -> (pt_tps z <= pt_tps x)%nat) ->
  In x (drop_intermediate pts).
Proof.
  intros Hs Hx Hf Hmax.
  apply in_split in Hx as [A [B ->]].
  destruct A as [|a A'].
  - destruct B as [|b1 [|b2 B']]; simpl; now left.
  - destruct B as [|w B'].
    + destruct (drop_shape ((a :: A') ++ [x]) pt0 ltac:(destruct A'; discriminate))
        as [Hne [_ [Hl _]]].
      rewrite last_last in Hl.
      pose proof (last_In _ pt0 Hne) as Hin. rewrite Hl in Hin. exact Hin.
    + destruct (exists_last (l := a :: A') ltac:(discriminate)) as [A [u Eu]].
      rewrite Eu. rewrite <- app_assoc. simpl app.
      assert (Hc : corner u x w = true).
      { rewrite Eu, <- app_assoc in Hs. simpl app in Hs.
        apply SS_app_r in Hs.
        assert (Hux : pt_lt u x) by (apply (SS_head _ u x (x :: w :: B') Hs); now left).
        apply StronglySorted_inv in Hs as [Hs _].
        assert (Hxw : pt_lt x w) by (apply (SS_head _ x w (w :: B') Hs); now left).
        assert (Hu : (pt_tps u <= pt_tps x)%nat)
          by (apply Hmax; rewrite Eu, <- app_assoc; apply in_app_iff; right; now left).
        assert (Hw : (pt_tps w <= pt_tps x)%nat)
          by (apply Hmax; apply in_app_iff; right; right; now left).
        unfold corner. apply orb_true_iff.
        destruct (Nat.eqb_spec (pt_fps w + pt_fps u) (2 * pt_fps x)) as [E|E];
          [right | left; reflexivity].
        apply negb_true_iff, Nat.eqb_neq. clf_step. }
      set (l := A ++ u :: x :: w :: B').
      assert (Hk : In x (keep_corners l)) by now apply keep_corners_In.
      destruct l as [|p0 [|p1 [|p2 r]]] eqn:El; try (simpl in Hk; contradiction).
      unfold drop_intermediate. right. apply in_app_iff. now left.
Qed.

Lemma add_start_In (pts pts' : list pt) (x : pt) :
  add_start pts = Ok pts' -> In x pts -> In x pts'.
Proof.
  destruct pts as [|p r]; intros H Hx; [contradiction|].
  unfold add_start in H. destruct (Nat.eqb (pt_fps p) 0); injection H as <-;
    [exact Hx | now right].
Qed.


(** Numbers of negative and positive truth values. *)
Definition n_neg (y : list bool) : nat := length (filter negb y).
Definition n_pos (y : list bool) : nat := length (filter (fun b => b) y).

Lemma n_neg_pos (y : list bool) : In false y -> (0 < n_neg y)%nat.
Proof.
  unfold n_neg; induction y as [|b y IH]; simpl; [contradiction|].
  intros [->|H]; simpl; [lia|]. destruct b; simpl; [apply IH, H | lia].
Qed.

Lemma n_pos_pos (y : list bool) : In true y -> (0 < n_pos y)%nat.
Proof.
  unfold n_pos; induction y as [|b y IH]; simpl; [contradiction|].
  intros [->|H]; simpl; [lia|]. destruct b; simpl; [lia | apply IH, H].
Qed.


(** The points behind the curve returned by [roc_curve]: starting on the
    fpr = 0 axis, componentwise non-decreasing, with strictly decreasing
    thresholds, ending at (negatives, positives). *)
Lemma roc_curve_pts (y : list bool) (s : list Z) :
  length s = length y -> y <> [] ->
  exists pts,
    roc_curve y s = Ok (rates (map pt_fps pts), rates (map pt_tps pts), map pt_thr pts) /\
    pts <> [] /\ StronglySorted pt_le pts /\ StronglySorted thr_gt pts /\
    pt_fps (hd pt0 pts) = O /\
    pt_fps (last pts pt0) = n_neg y /\ pt_tps (last pts pt0) = n_pos y /\
    (In true y -> In false y -> separates (combine s y) ->
       exists x, In x pts /\ pt_fps x = O /\ pt_tps x = n_pos y) /\
    (0 < n_neg y -> 2 <= length pts)%nat.
Proof.
  intros Hlen Hne.
  set (l := sort_desc (combine s y)).
  assert (Hperm : Permutation l (combine s y)) by apply sort_desc_perm.
  assert (Hl : l <> []).
  { intros E. apply Permutation_length in Hperm. rewrite E, length_combine in Hperm.
    destruct y; [contradiction|]. simpl in *. lia. }
  assert (Hneg : negs l = n_neg y)
    by (rewrite (negs_perm _ _ Hperm); now apply negs_combine).
  assert (Hpos : poss l = n_pos y)
    by (rewrite (poss_perm _ _ Hperm); now apply poss_combine).
  destruct (clf_last l 0 0 pt0 Hl) as [H0 [Hf0 Ht0]].
  set (pts0 := clf_points l 0 0) in *.
  destruct (drop_shape pts0 pt0 H0) as [H1 [Hh1 [Hl1 H21]]].
  destruct (add_start_shape (drop_intermediate pts0) pt0 H1)
    as [pts [Hadd [Hne2 [Hh2 [Hl2 [Hs2 [Ht2 Hcase]]]]]]].
  exists pts.
  assert (Hb : binary_clf_curve y s = Ok pts0).
  { unfold binary_clf_curve. rewrite Hlen, Nat.eqb_refl.
    destruct y; [contradiction | reflexivity]. }
  split; [unfold roc_curve; rewrite Hb; simpl; rewrite Hadd; reflexivity|].
  split; [exact Hne2|].
  split; [apply Hs2; eapply subseq_SS; [apply drop_subseq|];
          eapply SS_weaken; [|apply clf_sorted]; intros a b [H _]; exact H|].
  split; [apply Ht2; eapply subseq_SS; [apply drop_subseq|];
          apply clf_thr_sorted, sort_desc_sorted|].
  split; [exact Hh2|].
  rewrite Hl2, Hl1, Hf0, Ht0, Hneg, Hpos. split; [reflexivity|]. split; [reflexivity|].
  split.
  { intros Hp Hn Hsep.
    assert (Hsl : separates l).
    { intros a0 b0 Ia Ib. apply Hsep; eapply Permutation_in; eauto. }
    pose proof (separated_split l (sort_desc_sorted _) Hsl) as Esplit.
    destruct (clf_split_point (filter snd l) (filter (fun e => negb (snd e)) l) 0 0)
      as [x [Hx [Hfx Htx]]].
    - intros E. pose proof (n_pos_pos y Hp) as H. rewrite <- Hpos in H.
      unfold poss in H. change (filter (fun e => snd e) l) with (filter snd l) in H.
      rewrite E in H. simpl in H. lia.
    - intros E. pose proof (n_neg_pos y Hn) as H. rewrite <- Hneg in H.
      unfold negs in H. rewrite E in H. simpl in H. lia.
    - apply Forall_forall. intros e He. apply filter_In in He. tauto.
    - intros a0 b0 Ia Ib. apply filter_In in Ia as [Ia Hsa].
      apply filter_In in Ib as [Ib Hsb]. apply negb_true_iff in Hsb.
      now apply Hsl.
    - rewrite <- Esplit in Hx. exists x.
      assert (Htx' : pt_tps x = poss l) by (rewrite Htx; reflexivity).
      split; [| split; [exact Hfx | rewrite Htx', Hpos; reflexivity]].
      apply (add_start_In _ _ _ Hadd).
      apply drop_keeps_top; [apply clf_sorted | exact Hx | exact Hfx |].
      intros z Hz. apply clf_bounds in Hz. lia. }
  intros Hn.
  destruct pts0 as [|p0 [|p1 r]] eqn:Ep; [contradiction | |].
  - destruct Hcase as [[_ Hz] | [-> _]].
    + simpl in Hz, Hf0. lia.
    + simpl. lia.
  - assert (2 <= length (drop_intermediate (p0 :: p1 :: r)))%nat
      by (apply H21; simpl; lia).
    destruct Hcase as [[-> _] | [-> _]]; simpl in *; lia.
Qed.

Lemma rates_pos (v : list nat) (d : nat) :
  v <> [] -> last v 0%nat = d -> (0 < d)%nat ->
  rates v = map (fun x => Num (ratio x d)) v.
Proof.
  intros _ Hl Hd. unfold rates. rewrite Hl. destruct d; [lia | reflexivity].
Qed.

Lemma rates_zero (v : list nat) :
  last v 0%nat = O -> rates v = map (fun _ => NaN) v.
Proof. intros Hl. unfold rates. now rewrite Hl. Qed.

Lemma last_map_gen {A B} (f : A -> B) (l : list A) (da : A) (db : B) :
  l <> [] -> last (map f l) db = f (last l da).
Proof.
  intros Hne. rewrite (last_default (map f l) db (f da)).
  - clear Hne. induction l as [|x [|z r] IH]; [reflexivity | reflexivity |].
    simpl map. rewrite !last_cons2. exact IH.
  - destruct l; [contradiction | discriminate].
Qed.

Lemma hd_map_gen {A B} (f : A -> B) (l : list A) (da : A) (db : B) :
  l <> [] -> hd db (map f l) = f (hd da l).
Proof. destruct l; [contradiction | reflexivity]. Qed.

Lemma pos_of_nat_Z (d : nat) : (0 < d)%nat -> Z.pos (Pos.of_nat d) = Z.of_nat d.
Proof.
  intros Hd. destruct d as [|m]; [lia|].
  rewrite <- Pos.of_nat_succ, Zpos_P_of_succ_nat. lia.
Qed.

Lemma ratio_le (x x' d : nat) : (x <= x')%nat -> ratio x d <= ratio x' d.
Proof.
  intros H. unfold ratio, Qle; simpl. apply Z.mul_le_mono_nonneg_r; lia.
Qed.

Lemma ratio_zero (d : nat) : ratio 0 d == 0.
Proof. reflexivity. Qed.

Lemma ratio_diag (d : nat) : (0 < d)%nat -> ratio d d == 1.
Proof.
  intros Hd. unfold ratio, Qeq; simpl. rewrite pos_of_nat_Z by exact Hd. lia.
Qed.

Lemma ratio_bounds (x d : nat) : (x <= d)%nat -> (0 < d)%nat -> 0 <= ratio x d <= 1.
Proof.
  intros Hx Hd. unfold ratio, Qle; simpl. rewrite pos_of_nat_Z by exact Hd. lia.
Qed.

Lemma rates_num (pts : list pt) (f : pt -> nat) (d : nat) :
  pts <> [] -> f (last pts pt0) = d -> (0 < d)%nat ->
  rates (map f pts) = map Num (map (fun p => ratio (f p) d) pts).
Proof.
  intros Hne Hl Hd.
  rewrite (rates_pos _ d); [| destruct pts; [contradiction | discriminate] | | exact Hd].
  - now rewrite !map_map.
  - rewrite (last_map_gen f pts pt0 0%nat Hne). exact Hl.
Qed.

Lemma pt_le_fps a b : pt_le a b -> (pt_fps a <= pt_fps b)%nat.
Proof. intros [H _]; exact H. Qed.
Lemma pt_le_tps a b : pt_le a b -> (pt_tps a <= pt_tps b)%nat.
Proof. intros [_ H]; exact H. Qed.

Lemma SS_last_le (pts : list pt) (x : pt) :
  StronglySorted pt_le pts -> In x pts -> pt_le x (last pts pt0).
Proof.
  induction pts as [|p r IH]; intros Hs Hx; [contradiction|].
  apply StronglySorted_inv in Hs as [Hr Hf].
  destruct r as [|q r'].
  - destruct Hx as [<-|[]]. simpl. split; lia.
  - rewrite last_cons2. destruct Hx as [<-|Hx].
    + rewrite Forall_forall in Hf. apply Hf, last_In. discriminate.
    + now apply IH.
Qed.

(** What the (fpr, tpr) curve looks like on a two-class truth vector. *)
Definition first_point_origin (fpr tpr : list num) : Prop :=
  match fpr, tpr with
  | Num a :: _, Num b :: _ => a == 0 /\ b == 0
  | _, _ => False
  end.

(** The highest-score group holds a negative: some record with the highest
    score has a false truth value. *)
Definition top_has_neg (y : list bool) (s : list Z) : bool :=
  existsb (fun e : Z * bool => negb (snd e) && forallb (fun w => Z.leb w (fst e)) s)
          (combine s y).

(** C4 (as stated: the curve starts at (0, 0)) fails: for y = [1,1,0,0]
    and scores [4,3,2,1] the highest-score group holds no negative, no
    point is prepended, and the curve starts at (0, 1/2). *)
Lemma roc_curve_origin_counterexample :
  exists fpr tpr thr,
    roc_curve [true; true; false; false] [4; 3; 2; 1]%Z = Ok (fpr, tpr, thr) /\
    tpr = [Num (1 # 2); Num (2 # 2); Num (2 # 2)] /\
    ~ first_point_origin fpr tpr.
Proof.
  do 3 eexists. split; [vm_compute; reflexivity|]. split; [reflexivity|].
  simpl. intros [_ H]. compute in H. discriminate.
Qed.

(** ** Lemmas: [auc] on a finite non-decreasing curve *)

Lemma sorted_no_neg_step (fq : list Q) :
  Sorted Qle fq -> existsb nlt0 (diffs (map Num fq)) = false.
Proof.
  induction fq as [|f0 [|f1 r] IH]; intros Hs; [reflexivity | reflexivity |].
  assert (E : existsb nlt0 (diffs (map Num (f0 :: f1 :: r)))
              = nlt0 (Num (f1 - f0)) || existsb nlt0 (diffs (map Num (f1 :: r))))
    by reflexivity.
  apply Sorted_inv in Hs as [Hs Hh]. apply HdRel_inv in Hh.
  rewrite E, (IH Hs), orb_false_r.
  simpl. apply negb_false_iff, Qle_bool_iff. lra.
Qed.

Lemma trapz_num (fq tq : list Q) :
  length fq = length tq ->
  exists q, trapz (map Num tq) (map Num fq) = Num q /\ q == trapezoid_sum fq tq.
Proof.
  revert tq; induction fq as [|f0 ft IH]; intros tq Hl.
  - destruct tq; [|discriminate]. exists 0; split; reflexivity.
  - destruct tq as [|t0 tt]; [discriminate|].
    destruct ft as [|f1 fr], tt as [|t1 tr]; try discriminate.
    + exists 0; split; reflexivity.
    + destruct (IH (t1 :: tr) ltac:(simpl in *; lia)) as [q [Hq Heq]].
      assert (E : trapz (map Num (t0 :: t1 :: tr)) (map Num (f0 :: f1 :: fr))
                  = nadd (Num ((f1 - f0) * ((t1 + t0) / 2)))
                         (trapz (map Num (t1 :: tr)) (map Num (f1 :: fr))))
        by reflexivity.
      assert (Et : trapezoid_sum (f0 :: f1 :: fr) (t0 :: t1 :: tr)
                   = (f1 - f0) * (t0 + t1) / 2 + trapezoid_sum (f1 :: fr) (t1 :: tr))
        by reflexivity.
      rewrite E, Hq. exists ((f1 - f0) * ((t1 + t0) / 2) + q).
      split; [reflexivity|]. rewrite Et, Heq. field.
Qed.

Lemma auc_sorted (fq tq : list Q) :
  length fq = length tq -> (2 <= length fq)%nat -> Sorted Qle fq ->
  exists a, auc (map Num fq) (map Num tq) = Ok (Num a) /\ a == trapezoid_sum fq tq.
Proof.
  intros Hl H2 Hs. unfold auc. rewrite !length_map, Hl, Nat.eqb_refl. simpl negb.
  cbv iota beta.
  destruct (Nat.ltb (length tq) 2) eqn:E; [apply Nat.ltb_lt in E; lia|].
  rewrite (sorted_no_neg_step fq Hs).
  destruct (trapz_num fq tq Hl) as [q [Hq Heq]].
  rewrite Hq. exists q. split; [reflexivity | exact Heq].
Qed.

Lemma trapezoid_bounds (fq tq : list Q) :
  length fq = length tq -> Sorted Qle fq ->
  Forall (fun t => 0 <= t <= 1) tq ->
  0 <= trapezoid_sum fq tq <= last fq 0 - hd 0 fq.
Proof.
  revert tq; induction fq as [|f0 ft IH]; intros tq Hl Hs Ht.
  - simpl. lra.
  - destruct tq as [|t0 tt]; [discriminate|].
    destruct ft as [|f1 fr], tt as [|t1 tr]; try discriminate.
    + simpl. lra.
    + apply Sorted_inv in Hs as [Hs Hh]. apply HdRel_inv in Hh.
      apply Forall_cons_iff in Ht as [Ht0 Ht].
      pose proof Ht as Ht'. apply Forall_cons_iff in Ht' as [Ht1 _].
      destruct (IH (t1 :: tr) ltac:(simpl in *; lia) Hs Ht) as [Hlo Hhi].
      assert (Et : trapezoid_sum (f0 :: f1 :: fr) (t0 :: t1 :: tr)
                   = (f1 - f0) * (t0 + t1) / 2 + trapezoid_sum (f1 :: fr) (t1 :: tr))
        by reflexivity.
      rewrite Et, last_cons2. simpl hd in *.
      assert (Hd : 0 <= f1 - f0) by lra.
      assert (Hm : 0 <= (t0 + t1) * (1 # 2) <= 1) by (split; lra).
      assert (Hp1 : 0 <= (f1 - f0) * ((t0 + t1) * (1 # 2)))
        by (apply Qmult_le_0_compat; lra).
      assert (Hp2 : (f1 - f0) * ((t0 + t1) * (1 # 2)) <= (f1 - f0) * 1)
        by (apply Qmult_le_compat_nonneg; split; lra).
      assert (Hr : (f1 - f0) * (t0 + t1) / 2 == (f1 - f0) * ((t0 + t1) * (1 # 2)))
        by field.
      rewrite Hr. lra.
Qed.

(** On a curve whose points are ordered, whose true-positive counts are
    bounded by [P] and which reaches [P] true positives while still at
    zero false positives, the trapezoids cover the whole width of the
    curve. *)
Lemma perfect_trapezoid (N P : nat) (HP : (0 < P)%nat) (pts : list pt) :
  StronglySorted pt_le pts ->
  (forall z, In z pts -> (pt_tps z <= P)%nat) ->
  ((exists x, In x pts /\ pt_fps x = O /\ pt_tps x = P) \/
   (forall z, In z pts -> pt_tps z = P)) ->
  trapezoid_sum (map (fun p => ratio (pt_fps p) N) pts)
                (map (fun p => ratio (pt_tps p) P) pts)
  == last (map (fun p => ratio (pt_fps p) N) pts) 0
     - hd 0 (map (fun p => ratio (pt_fps p) N) pts).
Proof.
  induction pts as [|a r IH]; intros Hs Hb Hi; [simpl; lra|].
  destruct r as [|b r]; [simpl; lra|].
  set (fr := fun p : pt => ratio (pt_fps p) N) in *.
  set (tr := fun p : pt => ratio (pt_tps p) P) in *.
  assert (Et : trapezoid_sum (map fr (a :: b :: r)) (map tr (a :: b :: r))
               = (fr b - fr a) * (tr a + tr b) / 2
                 + trapezoid_sum (map fr (b :: r)) (map tr (b :: r)))
    by reflexivity.
  assert (El : last (map fr (a :: b :: r)) 0 = last (map fr (b :: r)) 0) by reflexivity.
  assert (Eh : hd 0 (map fr (a :: b :: r)) = fr a) by reflexivity.
  assert (Eh' : hd 0 (map fr (b :: r)) = fr b) by reflexivity.
  assert (Hab : pt_le a b) by (apply (SS_head _ a b (b :: r) Hs); now left).
  apply StronglySorted_inv in Hs as [Hs _].
  assert (Hbr : forall z, In z (b :: r) -> z = b \/ pt_le b z).
  { intros z [<-|Hz]; [now left | right]. apply (SS_head _ b z r Hs Hz). }
  assert (Hi' : (exists x, In x (b :: r) /\ pt_fps x = O /\ pt_tps x = P) \/
                (forall z, In z (b :: r) -> pt_tps z = P)).
  { destruct Hi as [[x [[<-|Hx] [Hf Ht]]] | Hallp].
    - right. intros z Hz. specialize (Hb z (or_intror Hz)).
      pose proof (pt_le_tps _ _ Hab) as Hab'.
      destruct (Hbr z Hz) as [->|Hz']; [lia|].
      apply pt_le_tps in Hz'. lia.
    - left. exists x. auto.
    - right. intros z Hz. apply Hallp. now right. }
  specialize (IH Hs (fun z Hz => Hb z (or_intror Hz)) Hi').
  rewrite Et, El, Eh. rewrite Eh' in IH.
  destruct (Nat.eq_dec (pt_fps a) (pt_fps b)) as [E|E].
  - assert (Ef : fr a = fr b) by (unfold fr; cbv beta; rewrite E; reflexivity).
    rewrite Ef, IH. field.
  - assert (Hta : pt_tps a = P /\ pt_tps b = P).
    { destruct Hi as [[x [[<-|Hx] [Hf Ht]]] | Hallp].
      - split; [exact Ht|]. pose proof (pt_le_tps _ _ Hab).
        specialize (Hb b (or_intror (or_introl eq_refl))). lia.
      - exfalso. apply E. pose proof (pt_le_fps _ _ Hab).
        destruct (Hbr x Hx) as [->|Hx']; [lia|]. apply pt_le_fps in Hx'. lia.
      - split; apply Hallp; [now left | right; now left]. }
    destruct Hta as [Ha Hb2].
    assert (Eta : tr a == 1) by (unfold tr; cbv beta; rewrite Ha; apply ratio_diag, HP).
    assert (Etb : tr b == 1) by (unfold tr; cbv beta; rewrite Hb2; apply ratio_diag, HP).
    rewrite Eta, Etb, IH. field.
Qed.

(** ** C5: [auc] of a two-class ROC curve *)

(** C5: for a truth vector with both classes and a score vector of the same
    length, [roc_curve] yields finite rates, [auc] of them is the sum over i
    of (fpr[i+1]-fpr[i]) * (tpr[i]+tpr[i+1]) / 2, the value lies in [0,1],
    and it is 1 when every positive scores strictly higher than every
    negative (as for y = [1,1,0,0], scores = [4,3,2,1]). *)
Theorem roc_auc_trapezoid (y : list bool) (s : list Z)
  (Hlen : length s = length y) (Hp : In true y) (Hn : In false y) :
  (exists fq tq thr a,
    roc_curve y s = Ok (map Num fq, map Num tq, thr) /\
    auc (map Num fq) (map Num tq) = Ok (Num a) /\
    roc_auc y s = Ok (Num a) /\
    a == trapezoid_sum fq tq /\ 0 <= a <= 1 /\
    (separates (combine s y) -> a == 1)) /\
  (exists a1, roc_auc [true; true; false; false] [4; 3; 2; 1]%Z = Ok (Num a1) /\ a1 == 1).
Proof.
  split; [| exists (1024 # 1024); split; [vm_compute; reflexivity | reflexivity]].
  assert (Hne : y <> []) by (destruct y; [contradiction | discriminate]).
  pose proof (n_neg_pos y Hn) as HN. pose proof (n_pos_pos y Hp) as HP.
  destruct (roc_curve_pts y s Hlen Hne)
    as [pts [Hroc [Hpne [Hs [_ [Hh [Hlf [Hlt [Hsep H2]]]]]]]]].
  rewrite (rates_num pts pt_fps (n_neg y) Hpne Hlf HN) in Hroc.
  rewrite (rates_num pts pt_tps (n_pos y) Hpne Hlt HP) in Hroc.
  assert (Hbound : forall z, In z pts -> (pt_tps z <= n_pos y)%nat).
  { intros z Hz. rewrite <- Hlt. apply pt_le_tps, SS_last_le; assumption. }
  assert (Hsorted : Sorted Qle (map (fun p => ratio (pt_fps p) (n_neg y)) pts)).
  { apply StronglySorted_Sorted. eapply SS_map; [|exact Hs].
    intros a b Hab. apply ratio_le, pt_le_fps, Hab. }
  assert (Hwidth : last (map (fun p => ratio (pt_fps p) (n_neg y)) pts) 0
                   - hd 0 (map (fun p => ratio (pt_fps p) (n_neg y)) pts) == 1).
  { rewrite (hd_map_gen _ pts pt0 0 Hpne), Hh.
    rewrite (last_map_gen _ pts pt0 0 Hpne), Hlf.
    rewrite ratio_zero, ratio_diag by exact HN. reflexivity. }
  destruct (auc_sorted (map (fun p => ratio (pt_fps p) (n_neg y)) pts)
                       (map (fun p => ratio (pt_tps p) (n_pos y)) pts))
    as [a [Ha Hae]].
  { rewrite !length_map. reflexivity. }
  { rewrite length_map. now apply H2. }
  { exact Hsorted. }
  exists (map (fun p => ratio (pt_fps p) (n_neg y)) pts),
         (map (fun p => ratio (pt_tps p) (n_pos y)) pts), (map pt_thr pts), a.
  split; [exact Hroc|]. split; [exact Ha|].
  split; [unfold roc_auc; rewrite Hroc; exact Ha|].
  split; [exact Hae|]. split.
  - rewrite Hae.
    assert (Hb := trapezoid_bounds
                    (map (fun p => ratio (pt_fps p) (n_neg y)) pts)
                    (map (fun p => ratio (pt_tps p) (n_pos y)) pts)).
    destruct Hb as [Hb0 Hb1].
    + rewrite !length_map. reflexivity.
    + exact Hsorted.
    + apply Forall_forall. intros t Ht. apply in_map_iff in Ht as [p [<- Hpt]].
      apply ratio_bounds; [apply Hbound, Hpt | exact HP].
    + split; [exact Hb0 | rewrite Hwidth in Hb1; exact Hb1].
  - intros Hsp. destruct (Hsep Hp Hn Hsp) as [x [Hx [Hfx Htx]]].
    rewrite Hae, (perfect_trapezoid (n_neg y) (n_pos y) HP pts Hs Hbound).
    + exact Hwidth.
    + left. exists x. auto.
Qed.

Lemma roc_auc_trapezoid_witness :
  length [4; 3; 2; 1]%Z = length [true; true; false; false] /\
  In true [true; true; false; false] /\ In false [true; true; false; false] /\
  ((exists fq tq thr a,
    roc_curve [true; true; false; false] [4; 3; 2; 1]%Z
      = Ok (map Num fq, map Num tq, thr) /\
    auc (map Num fq) (map Num tq) = Ok (Num a) /\
    roc_auc [true; true; false; false] [4; 3; 2; 1]%Z = Ok (Num a) /\
    a == trapezoid_sum fq tq /\ 0 <= a <= 1 /\
    (separates (combine [4; 3; 2; 1]%Z [true; true; false; false]) -> a == 1)) /\
  (exists a1, roc_auc [true; true; false; false] [4; 3; 2; 1]%Z = Ok (Num a1) /\ a1 == 1)).
Proof.
  split; [reflexivity|]. split; [now left|]. split; [right; right; now left|].
  apply roc_auc_trapezoid; [reflexivity | now left | right; right; now left].
Defined.

(** ** Lemmas: thresholds of the curve *)

Lemma rates_length (v : list nat) : length (rates v) = length v.
Proof. unfold rates. destruct (last v 0%nat); apply length_map. Qed.

Lemma SS_gt_NoDup (l : list Z) : StronglySorted Z.gt l -> NoDup l.
Proof.
  induction l as [|a l IH]; intros H; [constructor|].
  apply StronglySorted_inv in H as [H1 H2]. constructor; [|now apply IH].
  intros Hin. rewrite Forall_forall in H2. specialize (H2 a Hin). lia.
Qed.

(** ** C6: one curve point per distinct score *)

(** C6: every non-empty input of consistent length gives one threshold per
    curve point, the thresholds are strictly decreasing (so no two points
    share a score value: records with equal scores form one step), and the
    all-tied input y = [1,0,1,0], scores = [1,1,1,1] has AUC 0.5. *)
Theorem roc_curve_ties (y : list bool) (s : list Z)
  (Hlen : length s = length y) (Hne : y <> []) :
  (exists fpr tpr thr,
    roc_curve y s = Ok (fpr, tpr, thr) /\
    length fpr = length thr /\ length tpr = length thr /\
    StronglySorted Z.gt thr /\ NoDup thr) /\
  (exists a, roc_auc [true; false; true; false] [1; 1; 1; 1]%Z = Ok (Num a) /\ a == 1 # 2).
Proof.
  split; [| exists (16 # 32); split; [vm_compute; reflexivity | reflexivity]].
  destruct (roc_curve_pts y s Hlen Hne)
    as [pts [Hroc [_ [_ [Ht _]]]]].
  assert (Hs : StronglySorted Z.gt (map pt_thr pts)).
  { eapply SS_map; [|exact Ht]. intros a b Hab. unfold thr_gt in Hab. lia. }
  exists (rates (map pt_fps pts)), (rates (map pt_tps pts)), (map pt_thr pts).
  split; [exact Hroc|].
  rewrite !rates_length, !length_map.
  split; [reflexivity|]. split; [reflexivity|].
  split; [exact Hs | now apply SS_gt_NoDup].
Qed.

Lemma roc_curve_ties_witness :
  length [1; 1; 1; 1]%Z = length [true; false; true; false] /\
  [true; false; true; false] <> [] /\
  ((exists fpr tpr thr,
    roc_curve [true; false; true; false] [1; 1; 1; 1]%Z = Ok (fpr, tpr, thr) /\
    length fpr = length thr /\ length tpr = length thr /\
    StronglySorted Z.gt thr /\ NoDup thr) /\
  (exists a, roc_auc [true; false; true; false] [1; 1; 1; 1]%Z = Ok (Num a) /\ a == 1 # 2)).
Proof.
  split; [reflexivity|]. split; [discriminate|].
  apply roc_curve_ties; [reflexivity | discriminate].
Defined.

(** ** Lemmas: a strictly increasing transform of the scores *)

(** The transform applied to a (score, label) pair and to a curve point. *)
Definition map_score (f : Z -> Z) (e : Z * bool) : Z * bool := (f (fst e), snd e).
Definition map_thr (f : Z -> Z) (p : pt) : pt := (fst p, f (snd p)).

Lemma map_fst_map_thr (f : Z -> Z) (l : list pt) :
  map fst (map (map_thr f) l) = map fst l.
Proof. induction l as [|p l IH]; simpl; [reflexivity | now rewrite IH]. Qed.

Lemma counts_eq (a b : list pt) :
  map fst a = map fst b ->
  map pt_fps a = map pt_fps b /\ map pt_tps a = map pt_tps b.
Proof.
  intros H.
  replace (map pt_fps a) with (map fst (map fst a)) by (rewrite map_map; reflexivity).
  replace (map pt_fps b) with (map fst (map fst b)) by (rewrite map_map; reflexivity).
  replace (map pt_tps a) with (map snd (map fst a)) by (rewrite map_map; reflexivity).
  replace (map pt_tps b) with (map snd (map fst b)) by (rewrite map_map; reflexivity).
  rewrite H. split; reflexivity.
Qed.

Section Monotone.

Variable f : Z -> Z.
Hypothesis Hf : forall a b, (a < b)%Z -> (f a < f b)%Z.

Lemma mono_leb a b : Z.leb (f a) (f b) = Z.leb a b.
Proof.
  destruct (Z.leb_spec a b) as [H|H], (Z.leb_spec (f a) (f b)) as [H'|H'];
    try reflexivity; exfalso.
  - apply Z.le_lteq in H as [H| ->]; [pose proof (Hf _ _ H); lia | lia].
  - pose proof (Hf _ _ H). lia.
Qed.

Lemma mono_eqb a b : Z.eqb (f a) (f b) = Z.eqb a b.
Proof.
  destruct (Z.eqb_spec a b) as [->|H]; [apply Z.eqb_refl|].
  apply Z.eqb_neq.
  destruct (Z.lt_trichotomy a b) as [H1|[H1|H1]];
    [pose proof (Hf _ _ H1); lia | contradiction | pose proof (Hf _ _ H1); lia].
Qed.

Lemma combine_map_score (s : list Z) (y : list bool) :
  combine (map f s) y = map (map_score f) (combine s y).
Proof.
  revert y; induction s as [|a s IH]; intros [|b y]; simpl; try reflexivity.
  now rewrite IH.
Qed.

Lemma insert_asc_map x l :
  insert_asc (map_score f x) (map (map_score f) l) = map (map_score f) (insert_asc x l).
Proof.
  induction l as [|h t IH]; [reflexivity|].
  change (map (map_score f) (h :: t)) with (map_score f h :: map (map_score f) t).
  assert (E : forall u v w, insert_asc u (v :: w)
                = if Z.leb (fst u) (fst v) then u :: v :: w else v :: insert_asc u w)
    by reflexivity.
  rewrite !E. change (fst (map_score f x)) with (f (fst x)).
  change (fst (map_score f h)) with (f (fst h)). rewrite mono_leb.
  destruct (Z.leb (fst x) (fst h)); [reflexivity|]. simpl. now rewrite IH.
Qed.

Lemma sort_asc_map l : sort_asc (map (map_score f) l) = map (map_score f) (sort_asc l).
Proof.
  induction l as [|x t IH]; [reflexivity|]. simpl. rewrite IH. apply insert_asc_map.
Qed.

Lemma sort_desc_map l : sort_desc (map (map_score f) l) = map (map_score f) (sort_desc l).
Proof. unfold sort_desc. now rewrite sort_asc_map, map_rev. Qed.

Lemma clf_points_map l : forall fp tp,
  clf_points (map (map_score f) l) fp tp = map (map_thr f) (clf_points l fp tp).
Proof.
  induction l as [|[s b] rest IH]; intros fp tp; [reflexivity|].
  destruct rest as [|[s2 b2] r]; [destruct b; reflexivity|].
  change (map (map_score f) ((s, b) :: (s2, b2) :: r))
    with ((f s, b) :: (f s2, b2) :: map (map_score f) r).
  rewrite !clf_points_cons2, mono_eqb.
  change ((f s2, b2) :: map (map_score f) r) with (map (map_score f) ((s2, b2) :: r)).
  rewrite !IH. destruct (Z.eqb s s2); [reflexivity|]. destruct b; reflexivity.
Qed.

Lemma keep_corners_map pts :
  keep_corners (map (map_thr f) pts) = map (map_thr f) (keep_corners pts).
Proof.
  induction pts as [|p0 rest IH]; [reflexivity|].
  destruct rest as [|p1 [|p2 r]]; [reflexivity | reflexivity|].
  assert (E : forall q0 q1 q2 q, keep_corners (q0 :: q1 :: q2 :: q)
                = if corner q0 q1 q2 then q1 :: keep_corners (q1 :: q2 :: q)
                  else keep_corners (q1 :: q2 :: q)) by reflexivity.
  change (map (map_thr f) (p0 :: p1 :: p2 :: r))
    with (map_thr f p0 :: map_thr f p1 :: map_thr f p2 :: map (map_thr f) r).
  rewrite !E.
  change (corner (map_thr f p0) (map_thr f p1) (map_thr f p2)) with (corner p0 p1 p2).
  change (map_thr f p1 :: map_thr f p2 :: map (map_thr f) r)
    with (map (map_thr f) (p1 :: p2 :: r)).
  rewrite IH. destruct (corner p0 p1 p2); reflexivity.
Qed.

Lemma last_map_thr pts d :
  last (map (map_thr f) pts) (map_thr f d) = map_thr f (last pts d).
Proof.
  induction pts as [|a [|b r] IH]; [reflexivity | reflexivity|].
  change (last (map (map_thr f) (a :: b :: r)) (map_thr f d))
    with (last (map (map_thr f) (b :: r)) (map_thr f d)).
  rewrite IH. reflexivity.
Qed.

Lemma drop_map pts :
  drop_intermediate (map (map_thr f) pts) = map (map_thr f) (drop_intermediate pts).
Proof.
  destruct pts as [|p0 [|p1 [|p2 r]]]; try reflexivity.
  change (drop_intermediate (map (map_thr f) (p0 :: p1 :: p2 :: r)))
    with (map_thr f p0 :: keep_corners (map (map_thr f) (p0 :: p1 :: p2 :: r))
          ++ [last (map (map_thr f) (p0 :: p1 :: p2 :: r)) (map_thr f p0)]).
  rewrite keep_corners_map, last_map_thr.
  unfold drop_intermediate. rewrite map_cons, map_app. reflexivity.
Qed.

Lemma add_start_map pts :
  match add_start pts, add_start (map (map_thr f) pts) with
  | Ok a, Ok b => map fst a = map fst b
  | Err e1, Err e2 => e1 = e2
  | _, _ => False
  end.
Proof.
  destruct pts as [|[[fp tp] t] r]; [reflexivity|].
  simpl. change (pt_fps (map_thr f (fp, tp, t))) with fp.
  change (pt_fps (fp, tp, t)) with fp.
  destruct (Nat.eqb fp 0); simpl; now rewrite map_fst_map_thr.
Qed.

Lemma roc_curve_map y s :
  match roc_curve y s, roc_curve y (map f s) with
  | Ok (fp1, tp1, _), Ok (fp2, tp2, _) => fp1 = fp2 /\ tp1 = tp2
  | Err e1, Err e2 => e1 = e2
  | _, _ => False
  end.
Proof.
  unfold roc_curve, binary_clf_curve. rewrite length_map.
  destruct (negb (Nat.eqb (length y) (length s))); [reflexivity|].
  destruct y as [|b y']; [reflexivity|].
  cbn [bind].
  rewrite combine_map_score, sort_desc_map, clf_points_map, drop_map.
  pose proof (add_start_map (drop_intermediate (clf_points (sort_desc (combine s (b :: y'))) 0 0)))
    as H.
  revert H.
  destruct (add_start (drop_intermediate (clf_points (sort_desc (combine s (b :: y'))) 0 0)))
    as [a|e1];
  destruct (add_start (map (map_thr f)
              (drop_intermediate (clf_points (sort_desc (combine s (b :: y'))) 0 0))))
    as [a'|e2];
  intros H; try contradiction; cbn [bind]; [|exact H].
  apply counts_eq in H as [H1 H2]. rewrite H1, H2. split; reflexivity.
Qed.

(** ** C7: invariance of the AUC under a strictly increasing transform *)

(** C7: for every strictly increasing [f], every truth vector and every
    score vector, the AUC computed on [map f s] equals the AUC computed on
    [s] (errors included). *)
Theorem roc_auc_monotone (y : list bool) (s : list Z) :
  roc_auc y (map f s) = roc_auc y s.
Proof.
  unfold roc_auc. pose proof (roc_curve_map y s) as H. revert H.
  destruct (roc_curve y s) as [[[fp1 tp1] th1]|e1];
  destruct (roc_curve y (map f s)) as [[[fp2 tp2] th2]|e2];
  intros H; try contradiction; cbn [bind].
  - destruct H as [-> ->]. reflexivity.
  - subst. reflexivity.
Qed.

End Monotone.

Lemma roc_auc_monotone_witness :
  (forall a b, (a < b)%Z -> (2 * a + 1 < 2 * b + 1)%Z) /\
  roc_auc [true; false; true; false] (map (fun x => 2 * x + 1)%Z [3; 1; 2; 1]%Z)
  = roc_auc [true; false; true; false] [3; 1; 2; 1]%Z.
Proof.
  split; [intros; lia|].
  apply (roc_auc_monotone (fun x => 2 * x + 1)%Z). intros; lia.
Defined.

(** ** Lemmas: a truth vector with a single class *)

Lemma n_pos_zero (y : list bool) : ~ In true y -> n_pos y = O.
Proof.
  unfold n_pos; induction y as [|b y IH]; intros H; [reflexivity|].
  destruct b; [exfalso; apply H; now left|]. simpl. apply IH. intros Hy; apply H; now right.
Qed.

Lemma n_neg_zero (y : list bool) : ~ In false y -> n_neg y = O.
Proof.
  unfold n_neg; induction y as [|b y IH]; intros H; [reflexivity|].
  destruct b; [|exfalso; apply H; now left]. simpl. apply IH. intros Hy; apply H; now right.
Qed.

Lemma trapz_nan_y (y x : list num) :
  (2 <= length y)%nat -> (2 <= length x)%nat -> Forall (fun v => v = NaN) y ->
  trapz y x = NaN.
Proof.
  intros Hy Hx Hn.
  destruct y as [|y0 [|y1 yr]], x as [|x0 [|x1 xr]]; simpl in Hy, Hx; try lia.
  inversion Hn as [|? ? E0 Hn']; subst. inversion Hn' as [|? ? E1 _]; subst.
  destruct x0, x1; reflexivity.
Qed.

Lemma trapz_nan_x (y x : list num) :
  (2 <= length y)%nat -> (2 <= length x)%nat -> Forall (fun v => v = NaN) x ->
  trapz y x = NaN.
Proof.
  intros Hy Hx Hn.
  destruct y as [|y0 [|y1 yr]], x as [|x0 [|x1 xr]]; simpl in Hy, Hx; try lia.
  inversion Hn as [|? ? E0 Hn']; subst. inversion Hn' as [|? ? E1 _]; subst.
  reflexivity.
Qed.

Lemma nan_no_neg_step (x : list num) :
  Forall (fun v => v = NaN) x -> existsb nlt0 (diffs x) = false.
Proof.
  induction x as [|a x IH]; intros H; [reflexivity|].
  inversion H as [|? ? Ea Hx]; subst.
  destruct x as [|b r]; [reflexivity|].
  assert (E : existsb nlt0 (diffs (NaN :: b :: r))
              = nlt0 (nsub b NaN) || existsb nlt0 (diffs (b :: r))) by reflexivity.
  rewrite E, IH by exact Hx. inversion Hx; subst. reflexivity.
Qed.

Lemma Forall_nan_map {A} (l : list A) : Forall (fun v => v = NaN) (map (fun _ => NaN) l).
Proof. apply Forall_forall. intros v Hv. apply in_map_iff in Hv as [? [<- _]]. reflexivity. Qed.

(** A curve of ok rates and NaN true-positive rates has area NaN. *)
Lemma auc_nan_y (fq : list Q) (tn : list num) :
  length fq = length tn -> (2 <= length fq)%nat -> Sorted Qle fq ->
  Forall (fun v => v = NaN) tn -> auc (map Num fq) tn = Ok NaN.
Proof.
  intros Hl H2 Hs Hn. unfold auc. rewrite length_map, Hl, Nat.eqb_refl. simpl negb.
  cbv iota beta.
  destruct (Nat.ltb (length tn) 2) eqn:E; [apply Nat.ltb_lt in E; lia|].
  rewrite (sorted_no_neg_step fq Hs). f_equal.
  apply trapz_nan_y; [lia | rewrite length_map; lia | exact Hn].
Qed.

(** NaN false-positive rates: [auc] raises on fewer than two points and
    gives NaN otherwise. *)
Lemma auc_nan_x_split (xn ty : list num) :
  length xn = length ty -> Forall (fun v => v = NaN) xn ->
  auc xn ty = if Nat.ltb (length xn) 2 then Err TooFewPoints else Ok NaN.
Proof.
  intros Hl Hn. unfold auc. rewrite Hl, Nat.eqb_refl. simpl negb. cbv iota beta.
  destruct (Nat.ltb (length ty) 2) eqn:E; [reflexivity|].
  apply Nat.ltb_ge in E. rewrite (nan_no_neg_step xn Hn). f_equal.
  apply trapz_nan_x; [lia | lia | exact Hn].
Qed.

(** ** C8: a single-class truth vector *)

(** [roc_curve] does not signal an error on a single-class truth vector. *)
Lemma roc_curve_single_class_counterexample :
  exists fpr thr,
    roc_curve [false; false] [1; 2]%Z = Ok (fpr, [NaN; NaN; NaN], thr) /\
    roc_auc [false; false] [1; 2]%Z = Ok NaN.
Proof. do 2 eexists. split; vm_compute; reflexivity. Qed.

(** C8 (as the code behaves): for a non-empty truth vector and a score
    vector of the same length, [roc_curve] returns a curve also when the
    truth vector has a single class.  With no positive example the true
    positive rates are all NaN and the AUC is NaN, without any error; with
    no negative example the false positive rates are all NaN, and [auc]
    raises TooFewPoints when the curve has a single point and gives NaN
    when it has two or more. *)
Theorem roc_curve_single_class (y : list bool) (s : list Z)
  (Hlen : length s = length y) (Hne : y <> []) :
  (~ In true y ->
     exists fpr tpr thr,
       roc_curve y s = Ok (fpr, tpr, thr) /\ tpr = map (fun _ => NaN) thr /\
       roc_auc y s = Ok NaN) /\
  (~ In false y ->
     exists fpr tpr thr,
       roc_curve y s = Ok (fpr, tpr, thr) /\ fpr = map (fun _ => NaN) thr /\
       ((length thr < 2)%nat -> roc_auc y s = Err TooFewPoints) /\
       ((2 <= length thr)%nat -> roc_auc y s = Ok NaN)).
Proof.
  destruct (roc_curve_pts y s Hlen Hne)
    as [pts [Hroc [Hpne [Hs [_ [Hh [Hlf [Hlt [_ H2]]]]]]]]].
  split; intros Hc.
  - assert (Hn : In false y).
    { destruct y as [|[|] y']; [contradiction | exfalso; apply Hc; now left | now left]. }
    pose proof (n_neg_pos y Hn) as HN.
    assert (Ht0 : last (map pt_tps pts) 0%nat = O).
    { rewrite (last_map_gen _ pts pt0 0%nat Hpne), Hlt. now apply n_pos_zero. }
    rewrite (rates_zero _ Ht0) in Hroc.
    rewrite (rates_num pts pt_fps (n_neg y) Hpne Hlf HN) in Hroc.
    exists (map Num (map (fun p => ratio (pt_fps p) (n_neg y)) pts)),
           (map (fun _ => NaN) (map pt_tps pts)), (map pt_thr pts).
    split; [exact Hroc|]. split; [rewrite !map_map; reflexivity|].
    unfold roc_auc. rewrite Hroc. cbn [bind].
    apply auc_nan_y.
    + rewrite !length_map. reflexivity.
    + rewrite length_map. now apply H2.
    + apply StronglySorted_Sorted. eapply SS_map; [|exact Hs].
      intros a b Hab. apply ratio_le, pt_le_fps, Hab.
    + apply Forall_nan_map.
  - assert (Hf0 : last (map pt_fps pts) 0%nat = O).
    { rewrite (last_map_gen _ pts pt0 0%nat Hpne), Hlf. now apply n_neg_zero. }
    rewrite (rates_zero _ Hf0) in Hroc.
    exists (map (fun _ => NaN) (map pt_fps pts)),
           (rates (map pt_tps pts)), (map pt_thr pts).
    split; [exact Hroc|]. split; [rewrite !map_map; reflexivity|].
    unfold roc_auc. rewrite Hroc. cbn [bind].
    rewrite (auc_nan_x_split (map (fun _ => NaN) (map pt_fps pts)) (rates (map pt_tps pts))).
    + rewrite !length_map. split; intros Hl.
      * apply Nat.ltb_lt in Hl. rewrite Hl. reflexivity.
      * apply Nat.ltb_ge in Hl. rewrite Hl. reflexivity.
    + rewrite rates_length, !length_map. reflexivity.
    + apply Forall_nan_map.
Qed.

Lemma roc_curve_single_class_witness :
  length [1; 2]%Z = length [false; false] /\ [false; false] <> [] /\
  ((~ In true [false; false] ->
     exists fpr tpr thr,
       roc_curve [false; false] [1; 2]%Z = Ok (fpr, tpr, thr) /\
       tpr = map (fun _ => NaN) thr /\ roc_auc [false; false] [1; 2]%Z = Ok NaN) /\
   (~ In false [false; false] ->
     exists fpr tpr thr,
       roc_curve [false; false] [1; 2]%Z = Ok (fpr, tpr, thr) /\
       fpr = map (fun _ => NaN) thr /\
       ((length thr < 2)%nat -> roc_auc [false; false] [1; 2]%Z = Err TooFewPoints) /\
       ((2 <= length thr)%nat -> roc_auc [false; false] [1; 2]%Z = Ok NaN))).
Proof.
  split; [reflexivity|]. split; [discriminate|].
  apply roc_curve_single_class; [reflexivity | discriminate].
Defined.

(** ** C9: length checks of the joint metric operations *)

(** [metrics.accuracy_score] does not fail on two empty vectors. *)
Lemma accuracy_score_empty_counterexample :
  accuracy_score [] [] = Ok NaN.
Proof. reflexivity. Qed.

(** C9 (as the code behaves): a length mismatch makes [accuracy_score] and
    [print_cm] fail with the size-mismatch error; equal non-empty lengths
    give a result for both; two empty vectors make [print_cm] fail, while
    [accuracy_score] returns NaN. *)
Theorem joint_metrics_lengths (y_true y_pred : list bool) :
  (length y_true <> length y_pred ->
     accuracy_score y_true y_pred = Err InconsistentLength /\
     print_cm y_true y_pred = Err InconsistentLength) /\
  (length y_true = length y_pred -> y_true <> [] ->
     (exists a, accuracy_score y_true y_pred = Ok (Num a)) /\
     (exists c, print_cm y_true y_pred = Ok c)) /\
  (length y_true = length y_pred -> y_true = [] ->
     accuracy_score y_true y_pred = Ok NaN /\ print_cm y_true y_pred = Err EmptyInput).
Proof.
  split; [|split].
  - intros H. apply Nat.eqb_neq in H. unfold accuracy_score, print_cm.
    rewrite H. split; reflexivity.
  - intros H Hne. unfold accuracy_score, print_cm. rewrite H, Nat.eqb_refl. simpl negb.
    cbv iota beta.
    assert (Hn : length y_pred <> O).
    { rewrite <- H. destruct y_true; [contradiction | discriminate]. }
    split.
    + unfold np_average. rewrite length_map, length_combine, H, Nat.min_id.
      destruct (length y_pred); [contradiction|]. eexists; reflexivity.
    + apply Nat.eqb_neq in Hn. rewrite Hn. eexists; reflexivity.
  - intros H ->. destruct y_pred; [|discriminate]. split; reflexivity.
Qed.

Lemma joint_metrics_lengths_witness :
  length [true] <> length [true; false] /\
  accuracy_score [true] [true; false] = Err InconsistentLength /\
  print_cm [true] [true; false] = Err InconsistentLength.
Proof.
  split; [discriminate|].
  apply (proj1 (joint_metrics_lengths [true] [true; false])). discriminate.
Defined.

(** ** Lemmas: lengths in the notebook *)

Lemma outcome_y_length (df : cohort) : length (outcome_y df) = length df.
Proof. apply length_map. Qed.

Lemma np_and_same_length (a b : list bool) :
  length a = length b -> exists v, np_and a b = Ok v /\ length v = length a.
Proof.
  intros H. unfold np_and. rewrite H, Nat.eqb_refl. eexists. split; [reflexivity|].
  rewrite length_map, length_combine, H. apply Nat.min_id.
Qed.

Lemma yhat_length (df : cohort) : exists v, yhat df = Ok v /\ length v = length df.
Proof.
  unfold yhat. destruct (np_and_same_length (ge2 (map qsofa df)) (ge2 (map sofa df)))
    as [v [Hv Hl]].
  - unfold ge2. rewrite !length_map. reflexivity.
  - exists v. split; [exact Hv|]. rewrite Hl. unfold ge2. now rewrite !length_map.
Qed.

Lemma accuracy_score_no_mismatch (yt yp : list bool) :
  length yt = length yp -> accuracy_score yt yp <> Err InconsistentLength.
Proof. intros H. unfold accuracy_score. rewrite H, Nat.eqb_refl. discriminate. Qed.

Lemma print_cm_no_mismatch (yt yp : list bool) :
  length yt = length yp -> print_cm yt yp <> Err InconsistentLength.
Proof.
  intros H. unfold print_cm. rewrite H, Nat.eqb_refl. simpl negb. cbv iota beta.
  destruct (Nat.eqb (length yp) 0); discriminate.
Qed.

Lemma roc_auc_no_mismatch (y : list bool) (s : list Z) :
  length s = length y -> roc_auc y s <> Err InconsistentLength.
Proof.
  intros Hlen. destruct y as [|b y'].
  - destruct s; [discriminate | discriminate Hlen].
  - destruct (roc_curve_pts (b :: y') s Hlen ltac:(discriminate)) as [pts [Hroc _]].
    unfold roc_auc. rewrite Hroc. cbn [bind]. unfold auc.
    rewrite !rates_length, !length_map, Nat.eqb_refl. simpl negb. cbv iota beta.
    destruct (Nat.ltb _ 2); [discriminate|].
    destruct (existsb _ _); [destruct (forallb _ _)|]; discriminate.
Qed.

Lemma print_op_stats_no_mismatch (yhs yts : list (list bool)) :
  Forall2 (fun yh yt => length yt = length yh) yhs yts ->
  print_op_stats yhs yts <> Err InconsistentLength.
Proof.
  induction 1 as [|yh yt yhs yts Hl _ IH]; [discriminate|].
  simpl. destruct (print_cm yt yh) as [c|e] eqn:E; cbn [bind].
  - destruct (print_op_stats yhs yts) as [cs|e']; cbn [bind]; [discriminate | exact IH].
  - intros He. injection He as ->. exact (print_cm_no_mismatch yt yh Hl E).
Qed.

(** ** C10: the notebook's joint metric calls never mismatch *)

(** C10: for every loaded cohort table, the outcome vector [y], the rule
    vector [yhat] and every vector of [yhat_all] have the length of the
    table, and none of the joint metric calls of the notebook (accuracy,
    confusion matrix, the five ROC/AUC computations, [print_op_stats])
    ends in the dimension-mismatch error. *)
Theorem notebook_no_mismatch (df : cohort) :
  length (outcome_y df) = length df /\
  (exists v, yhat df = Ok v /\ length v = length df) /\
  Forall (fun v => length v = length df) (yhat_all df) /\
  nb_accuracy (notebook df) <> Err InconsistentLength /\
  nb_cm (notebook df) <> Err InconsistentLength /\
  Forall (fun r => r <> Err InconsistentLength) (nb_aucs (notebook df)) /\
  nb_stats (notebook df) <> Err InconsistentLength.
Proof.
  pose proof (outcome_y_length df) as Hy.
  destruct (yhat_length df) as [v [Hv Hvl]].
  assert (Hall : Forall (fun v => length v = length df) (yhat_all df)).
  { unfold yhat_all, ge2. repeat constructor; rewrite !length_map; reflexivity. }
  split; [exact Hy|]. split; [exists v; auto|]. split; [exact Hall|].
  unfold notebook; cbn [nb_accuracy nb_cm nb_aucs nb_stats].
  rewrite Hv. cbn [bind].
  split; [apply accuracy_score_no_mismatch; congruence|].
  split; [apply print_cm_no_mismatch; congruence|].
  split.
  - unfold yhat in Hv. rewrite Hv. cbn [bind].
    repeat constructor; apply roc_auc_no_mismatch;
      rewrite ?length_map, ?Hvl; symmetry; exact Hy.
  - apply print_op_stats_no_mismatch. unfold y_all.
    rewrite Forall_forall in Hall.
    repeat constructor; rewrite Hy; symmetry; apply Hall; simpl; tauto.
Qed.

(** * Further properties of the code *)

(** ** Lemmas: the points of [roc_curve] *)

Lemma roc_curve_struct (y : list bool) (s : list Z) :
  length s = length y -> y <> [] ->
  exists pts,
    add_start (drop_intermediate (clf_points (sort_desc (combine s y)) 0 0)) = Ok pts /\
    roc_curve y s = Ok (rates (map pt_fps pts), rates (map pt_tps pts), map pt_thr pts) /\
    pts <> [] /\ StronglySorted pt_le pts /\
    pt_fps (last pts pt0) = n_neg y /\ pt_tps (last pts pt0) = n_pos y /\
    (0 < n_neg y -> 2 <= length pts)%nat.
Proof.
  intros Hlen Hne.
  set (l := sort_desc (combine s y)).
  assert (Hperm : Permutation l (combine s y)) by apply sort_desc_perm.
  assert (Hl : l <> []).
  { intros E. apply Permutation_length in Hperm. rewrite E, length_combine in Hperm.
    destruct y; [contradiction|]. simpl in *. lia. }
  assert (Hneg : negs l = n_neg y)
    by (rewrite (negs_perm _ _ Hperm); now apply negs_combine).
  assert (Hpos : poss l = n_pos y)
    by (rewrite (poss_perm _ _ Hperm); now apply poss_combine).
  destruct (clf_last l 0 0 pt0 Hl) as [H0 [Hf0 Ht0]].
  set (pts0 := clf_points l 0 0) in *.
  destruct (drop_shape pts0 pt0 H0) as [H1 [Hh1 [Hl1 H21]]].
  destruct (add_start_shape (drop_intermediate pts0) pt0 H1)
    as [pts [Hadd [Hne2 [Hh2 [Hl2 [Hs2 [Ht2 Hcase]]]]]]].
  exists pts. split; [exact Hadd|].
  assert (Hb : binary_clf_curve y s = Ok pts0).
  { unfold binary_clf_curve. rewrite Hlen, Nat.eqb_refl.
    destruct y; [contradiction | reflexivity]. }
  split; [unfold roc_curve; rewrite Hb; simpl; rewrite Hadd; reflexivity|].
  split; [exact Hne2|].
  split; [apply Hs2; eapply subseq_SS; [apply drop_subseq|];
          eapply SS_weaken; [|apply clf_sorted]; intros a b [H _]; exact H|].
  rewrite Hl2, Hl1, Hf0, Ht0, Hneg, Hpos. split; [reflexivity|]. split; [reflexivity|].
  intros Hn.
  destruct pts0 as [|p0 [|p1 r]] eqn:Ep; [contradiction | |].
  - destruct Hcase as [[_ Hz] | [-> _]].
    + simpl in Hz, Hf0. lia.
    + simpl. lia.
  - assert (2 <= length (drop_intermediate (p0 :: p1 :: r)))%nat
      by (apply H21; simpl; lia).
    destruct Hcase as [[-> _] | [-> _]]; simpl in *; lia.
Qed.

(** Number of records with label [b] and a score of at least [t]. *)
Definition count_ge (b : bool) (t : Z) (l : list (Z * bool)) : nat :=
  length (filter (fun e => Z.leb t (fst e) && Bool.eqb (snd e) b) l).

Lemma count_ge_cons b t s b' l :
  count_ge b t ((s, b') :: l)
  = ((if Z.leb t s && Bool.eqb b' b then 1 else 0) + count_ge b t l)%nat.
Proof. unfold count_ge. simpl. destruct (Z.leb t s && Bool.eqb b' b); reflexivity. Qed.

Lemma count_ge_none b t l :
  Forall (fun e => (fst e < t)%Z) l -> count_ge b t l = O.
Proof.
  induction 1 as [|[s b'] l Hx _ IH]; [reflexivity|].
  rewrite count_ge_cons, IH. simpl in Hx. destruct (Z.leb_spec t s); [lia | reflexivity].
Qed.

Lemma count_ge_perm b t l l' : Permutation l l' -> count_ge b t l = count_ge b t l'.
Proof. apply Permutation_filter_length. Qed.

(** A point emitted while walking down the sorted records counts the
    records whose score reaches its threshold. *)
Lemma clf_counts l : forall fp tp x,
  StronglySorted (fun a b => score_le b a) l -> In x (clf_points l fp tp) ->
  pt_fps x = (fp + count_ge false (pt_thr x) l)%nat /\
  pt_tps x = (tp + count_ge true (pt_thr x) l)%nat.
Proof.
  induction l as [|[s b] rest IH]; intros fp tp x Hs Hx; [contradiction|].
  apply StronglySorted_inv in Hs as [Hr Hh].
  rewrite !count_ge_cons.
  assert (Hle : forall x' fp' tp', In x' (clf_points rest fp' tp') -> Z.leb (pt_thr x') s = true).
  { intros x' fp' tp' Hx'. apply clf_thr_in in Hx' as [e [He ->]].
    rewrite Forall_forall in Hh. apply Z.leb_le. exact (Hh e He). }
  destruct rest as [|[s2 b2] r].
  - simpl in Hx. destruct Hx as [<-|[]].
    cbn [pt_thr pt_fps pt_tps fst snd]. rewrite Z.leb_refl. unfold count_ge.
    destruct b; cbn; lia.
  - rewrite clf_points_cons2 in Hx.
    assert (Hrec : forall x',
      In x' (clf_points ((s2, b2) :: r) (if b then fp else S fp) (if b then S tp else tp)) ->
      pt_fps x' = (fp + ((if Z.leb (pt_thr x') s && Bool.eqb b false then 1 else 0)
                        + count_ge false (pt_thr x') ((s2, b2) :: r)))%nat /\
      pt_tps x' = (tp + ((if Z.leb (pt_thr x') s && Bool.eqb b true then 1 else 0)
                        + count_ge true (pt_thr x') ((s2, b2) :: r)))%nat).
    { intros x' Hx'. pose proof (Hle _ _ _ Hx') as Hl'.
      destruct (IH _ _ _ Hr Hx') as [E1 E2]. rewrite Hl'. destruct b; simpl; lia. }
    destruct (Z.eqb s s2) eqn:E; [now apply Hrec|].
    destruct Hx as [<-|Hx]; [|now apply Hrec].
    assert (Hlt : Forall (fun e => (fst e < s)%Z) ((s2, b2) :: r)).
    { apply Z.eqb_neq in E. inversion Hh as [|? ? H2 _]; subst.
      unfold score_le in H2; simpl in H2.
      apply StronglySorted_inv in Hr as [_ Hr2]. constructor; [simpl; lia|].
      eapply Forall_impl; [|exact Hr2]. intros e He. unfold score_le in He; simpl in He. lia. }
    cbn [pt_thr pt_fps pt_tps fst snd]. rewrite Z.leb_refl.
    rewrite !(count_ge_none _ s ((s2, b2) :: r) Hlt). destruct b; simpl; lia.
Qed.

Lemma clf_hd_thr rest : forall s b fp tp d,
  pt_thr (hd d (clf_points ((s, b) :: rest) fp tp)) = s.
Proof.
  induction rest as [|[s2 b2] r IH]; intros s b fp tp d; [reflexivity|].
  rewrite clf_points_cons2. destruct (Z.eqb s s2) eqn:E; [|reflexivity].
  apply Z.eqb_eq in E. subst. apply IH.
Qed.

(** The records sorted by decreasing score start with a highest score. *)
Lemma sort_desc_top (s : list Z) (y : list bool) :
  length s = length y -> y <> [] ->
  exists s0 b0 rest, sort_desc (combine s y) = (s0, b0) :: rest /\ In s0 s /\
    forall z, In z s -> (z <= s0)%Z.
Proof.
  intros Hlen Hne.
  assert (Hperm : Permutation (sort_desc (combine s y)) (combine s y)) by apply sort_desc_perm.
  pose proof (sort_desc_sorted (combine s y)) as Hs.
  destruct (sort_desc (combine s y)) as [|[s0 b0] rest] eqn:E.
  - apply Permutation_length in Hperm. rewrite length_combine in Hperm.
    destruct y; [contradiction|]. simpl in *. lia.
  - exists s0, b0, rest. split; [reflexivity|]. split.
    + eapply in_combine_l. apply (Permutation_in _ Hperm). now left.
    + intros z Hz.
      destruct (In_nth s z 0%Z Hz) as [i [Hi Hzi]].
      assert (Hin : In (z, nth i y false) (combine s y)).
      { rewrite <- Hzi. rewrite <- combine_nth by exact Hlen.
        apply nth_In. rewrite length_combine. lia. }
      apply (Permutation_in _ (Permutation_sym Hperm)) in Hin.
      destruct Hin as [Hin|Hin]; [injection Hin as -> _; lia|].
      apply StronglySorted_inv in Hs as [_ Hh]. rewrite Forall_forall in Hh.
      exact (Hh _ Hin).
Qed.

(** Every point of the returned curve counts the records whose score
    reaches its threshold. *)
Lemma roc_points_counts (y : list bool) (s : list Z) (pts : list pt) :
  length s = length y -> y <> [] ->
  add_start (drop_intermediate (clf_points (sort_desc (combine s y)) 0 0)) = Ok pts ->
  forall x, In x pts ->
    pt_fps x = count_ge false (pt_thr x) (combine s y) /\
    pt_tps x = count_ge true (pt_thr x) (combine s y).
Proof.
  intros Hlen Hne Hadd.
  assert (Hperm : Permutation (sort_desc (combine s y)) (combine s y)) by apply sort_desc_perm.
  pose proof (sort_desc_sorted (combine s y)) as Hs.
  destruct (sort_desc_top s y Hlen Hne) as [s0 [b0 [rest [El [Hs0 Hmax]]]]].
  assert (Hin0 : forall x, In x (clf_points (sort_desc (combine s y)) 0 0) ->
    pt_fps x = count_ge false (pt_thr x) (combine s y) /\
    pt_tps x = count_ge true (pt_thr x) (combine s y)).
  { intros x Hx. destruct (clf_counts _ 0 0 x Hs Hx) as [E1 E2].
    rewrite <- !(count_ge_perm _ _ _ _ Hperm). split; assumption. }
  rewrite El in Hin0, Hadd.
  assert (Hne0 : clf_points ((s0, b0) :: rest) 0 0 <> []).
  { apply (clf_last _ 0 0 pt0). discriminate. }
  destruct (drop_shape _ pt0 Hne0) as [Hne1 [Hh1 _]].
  destruct (drop_intermediate (clf_points ((s0, b0) :: rest) 0 0)) as [|p r] eqn:Ed;
    [contradiction|].
  assert (Hsub : forall x, In x (p :: r) -> In x (clf_points ((s0, b0) :: rest) 0 0)).
  { intros x Hx. eapply subseq_In; [|exact Hx]. rewrite <- Ed. apply drop_subseq. }
  unfold add_start in Hadd.
  destruct (Nat.eqb (pt_fps p) 0); injection Hadd as <-; [intros x Hx; now apply Hin0, Hsub|].
  intros x [<-|Hx]; [|now apply Hin0, Hsub].
  change (hd pt0 (p :: r)) with p in Hh1.
  assert (Ht : pt_thr p = s0) by (rewrite Hh1; apply clf_hd_thr).
  cbn [pt_thr pt_fps pt_tps fst snd]. rewrite Ht.
  assert (Hlt : Forall (fun e => (fst e < s0 + 1)%Z) (combine s y)).
  { apply Forall_forall. intros [z b] Hz. apply in_combine_l in Hz.
    specialize (Hmax z Hz). simpl. lia. }
  rewrite !(count_ge_none _ _ _ Hlt). split; reflexivity.
Qed.
Lemma count_ge_pos b t l :
  (0 < count_ge b t l)%nat <-> exists z, In (z, b) l /\ (t <= z)%Z.
Proof.
  induction l as [|[z b'] l IH]; [split; [cbn; lia | intros [? [[] _]]]|].
  rewrite count_ge_cons. split.
  - intros H. destruct (Z.leb t z && Bool.eqb b' b) eqn:E.
    + apply andb_prop in E as [E1 E2]. apply Z.leb_le in E1. apply eqb_prop in E2.
      subst b'. exists z. split; [now left | exact E1].
    + destruct (proj1 IH ltac:(lia)) as [z' [Hz' Hle]]. exists z'. split; [now right | exact Hle].
  - intros [z' [[E | Hz'] Hle]].
    + injection E as -> ->. apply Z.leb_le in Hle. rewrite Hle, eqb_reflx. cbn [andb]. lia.
    + assert (0 < count_ge b t l)%nat by (apply IH; exists z'; split; assumption). lia.
Qed.

Lemma top_has_neg_spec (y : list bool) (s : list Z) (s0 : Z) :
  In s0 s -> (forall z, In z s -> (z <= s0)%Z) ->
  (top_has_neg y s = true <-> In (s0, false) (combine s y)).
Proof.
  intros Hs0 Hmax. unfold top_has_neg. rewrite existsb_exists. split.
  - intros [[z b] [Hz Hc]]. apply andb_prop in Hc as [Hb Hf]. cbn [fst snd] in Hb, Hf.
    destruct b; [discriminate|].
    rewrite forallb_forall in Hf. specialize (Hf s0 Hs0). apply Z.leb_le in Hf.
    pose proof (Hmax z (in_combine_l _ _ _ _ Hz)).
    replace s0 with z by lia. exact Hz.
  - intros H. exists (s0, false). split; [exact H|]. cbn [fst snd negb andb].
    apply forallb_forall. intros w Hw. apply Z.leb_le, Hmax, Hw.
Qed.

(** The first point of the curve: when the highest-score group holds a
    negative it is the prepended origin, with a threshold above every
    score; otherwise it is the first point of the records, at the highest
    score, with at least one true positive. *)
Lemma roc_first_point (y : list bool) (s : list Z) (pts : list pt) :
  length s = length y -> y <> [] ->
  add_start (drop_intermediate (clf_points (sort_desc (combine s y)) 0 0)) = Ok pts ->
  pt_fps (hd pt0 pts) = O /\
  (top_has_neg y s = true ->
     pt_tps (hd pt0 pts) = O /\ forall w, In w s -> (w < pt_thr (hd pt0 pts))%Z) /\
  (top_has_neg y s = false ->
     (0 < pt_tps (hd pt0 pts))%nat /\ In (pt_thr (hd pt0 pts)) s).
Proof.
  intros Hlen Hne Hadd.
  pose proof (roc_points_counts y s pts Hlen Hne Hadd) as Hc.
  destruct (sort_desc_top s y Hlen Hne) as [s0 [b0 [rest [El [Hs0 Hmax]]]]].
  pose proof (top_has_neg_spec y s s0 Hs0 Hmax) as Htop.
  assert (Hin0 : In (s0, b0) (combine s y)).
  { apply (Permutation_in _ (sort_desc_perm _)). rewrite El. now left. }
  assert (Hcnt : forall b, (0 < count_ge b s0 (combine s y))%nat <-> In (s0, b) (combine s y)).
  { intros b. rewrite count_ge_pos. split.
    - intros [z [Hz Hle]]. pose proof (Hmax z (in_combine_l _ _ _ _ Hz)).
      replace s0 with z by lia. exact Hz.
    - intros H. exists s0. split; [exact H | lia]. }
  rewrite El in Hadd.
  assert (Hne0 : clf_points ((s0, b0) :: rest) 0 0 <> []).
  { apply (clf_last _ 0 0 pt0). discriminate. }
  destruct (drop_shape _ pt0 Hne0) as [Hne1 [Hh1 _]].
  destruct (drop_intermediate (clf_points ((s0, b0) :: rest) 0 0)) as [|p r] eqn:Ed;
    [contradiction|].
  change (hd pt0 (p :: r)) with p in Hh1.
  assert (Ht : pt_thr p = s0) by (rewrite Hh1; apply clf_hd_thr).
  unfold add_start in Hadd.
  destruct (Nat.eqb (pt_fps p) 0) eqn:Ef; injection Hadd as <-.
  - apply Nat.eqb_eq in Ef.
    destruct (Hc p (or_introl eq_refl)) as [Ef' Et']. rewrite Ht in Ef', Et'.
    assert (Hno : ~ In (s0, false) (combine s y)).
    { intros H. apply Hcnt in H. lia. }
    cbn [hd]. split; [exact Ef|]. split.
    + intros H. apply Htop in H. contradiction.
    + intros _. rewrite Ht. split; [|exact Hs0].
      rewrite Et'. apply Hcnt. destruct b0; [exact Hin0 | contradiction].
  - apply Nat.eqb_neq in Ef.
    destruct (Hc p (or_intror (or_introl eq_refl))) as [Ef' _]. rewrite Ht in Ef'.
    assert (Hyes : In (s0, false) (combine s y)) by (apply Hcnt; lia).
    cbn [hd pt_fps pt_tps pt_thr fst snd]. split; [reflexivity|]. split.
    + intros _. split; [reflexivity|]. intros w Hw. rewrite Ht. pose proof (Hmax w Hw). lia.
    + intros H. apply Htop in Hyes. rewrite Hyes in H. discriminate.
Qed.

Lemma ratio_pos (x d : nat) : (0 < x)%nat -> (0 < d)%nat -> 0 < ratio x d.
Proof. intros Hx Hd. unfold ratio, Qlt; simpl. lia. Qed.

(** C4 (amended). On a two-class truth vector [roc_curve] returns finite
    (fpr, tpr) sequences of equal length with at least two points, both
    non-decreasing, whose first point has fpr = 0 and whose last point is
    (1, 1).  The origin (0, 0) is prepended, with a threshold above every
    score, exactly when the highest-score group holds a negative;
    otherwise the curve starts at (0, tpr) with tpr > 0 and a threshold
    that is one of the scores. *)
Theorem roc_curve_shape (y : list bool) (s : list Z)
  (Hlen : length s = length y) (Hp : In true y) (Hn : In false y) :
  exists fq tq thr,
    roc_curve y s = Ok (map Num fq, map Num tq, thr) /\
    length fq = length tq /\ (2 <= length fq)%nat /\
    Sorted Qle fq /\ Sorted Qle tq /\
    hd 1 fq == 0 /\ last fq 0 == 1 /\ last tq 0 == 1 /\
    (top_has_neg y s = true ->
       hd 1 tq == 0 /\ forall w, In w s -> (w < hd 0%Z thr)%Z) /\
    (top_has_neg y s = false ->
       0 < hd 1 tq /\ In (hd 0%Z thr) s).
Proof.
  assert (Hne : y <> []) by (destruct y; [contradiction | discriminate]).
  pose proof (n_neg_pos y Hn) as HN. pose proof (n_pos_pos y Hp) as HP.
  destruct (roc_curve_struct y s Hlen Hne)
    as [pts [Hadd [Hroc [Hpne [Hs [Hlf [Hlt H2]]]]]]].
  destruct (roc_first_point y s pts Hlen Hne Hadd) as [Hh [Htrue Hfalse]].
  rewrite (rates_num pts pt_fps (n_neg y) Hpne Hlf HN) in Hroc.
  rewrite (rates_num pts pt_tps (n_pos y) Hpne Hlt HP) in Hroc.
  do 3 eexists. split; [exact Hroc|].
  rewrite !length_map. split; [reflexivity|]. split; [now apply H2|].
  rewrite !(hd_map_gen _ pts pt0 _ Hpne).
  split; [|split].
  - apply StronglySorted_Sorted. eapply SS_map; [|exact Hs].
    intros a b Hab. apply ratio_le, pt_le_fps, Hab.
  - apply StronglySorted_Sorted. eapply SS_map; [|exact Hs].
    intros a b Hab. apply ratio_le, pt_le_tps, Hab.
  - rewrite Hh.
    rewrite (last_map_gen _ pts pt0 0 Hpne), Hlf.
    rewrite (last_map_gen _ pts pt0 0 Hpne), Hlt.
    split; [apply ratio_zero|]. split; [apply ratio_diag; assumption|].
    split; [apply ratio_diag; assumption|]. split.
    + intros H. destruct (Htrue H) as [E Hw]. rewrite E. split; [apply ratio_zero | exact Hw].
    + intros H. destruct (Hfalse H) as [E Hw]. split; [apply ratio_pos; assumption | exact Hw].
Qed.

Lemma roc_curve_shape_witness :
  length [4; 3; 2; 1]%Z = length [true; true; false; false] /\
  In true [true; true; false; false] /\ In false [true; true; false; false] /\
  exists fq tq thr,
    roc_curve [true; true; false; false] [4; 3; 2; 1]%Z = Ok (map Num fq, map Num tq, thr) /\
    length fq = length tq /\ (2 <= length fq)%nat /\
    Sorted Qle fq /\ Sorted Qle tq /\
    hd 1 fq == 0 /\ last fq 0 == 1 /\ last tq 0 == 1 /\
    (top_has_neg [true; true; false; false] [4; 3; 2; 1]%Z = true ->
       hd 1 tq == 0 /\ forall w, In w [4; 3; 2; 1]%Z -> (w < hd 0%Z thr)%Z) /\
    (top_has_neg [true; true; false; false] [4; 3; 2; 1]%Z = false ->
       0 < hd 1 tq /\ In (hd 0%Z thr) [4; 3; 2; 1]%Z).
Proof.
  split; [reflexivity|]. split; [now left|]. split; [right; right; now left|].
  apply roc_curve_shape; [reflexivity | now left | right; right; now left].
Defined.


(** ** X: the rates of [roc_curve] at each threshold *)

(** For a two-class truth vector, each point of [roc_curve] is the fraction
    of negatives and the fraction of positives whose score reaches the
    threshold returned with it. *)
Theorem roc_curve_counts (y : list bool) (s : list Z)
  (Hlen : length s = length y) (Hp : In true y) (Hn : In false y) :
  exists thr,
    roc_curve y s =
      Ok (map (fun t => Num (ratio (count_ge false t (combine s y)) (n_neg y))) thr,
          map (fun t => Num (ratio (count_ge true t (combine s y)) (n_pos y))) thr,
          thr).
Proof.
  assert (Hne : y <> []) by (destruct y; [contradiction | discriminate]).
  pose proof (n_neg_pos y Hn) as HN. pose proof (n_pos_pos y Hp) as HP.
  destruct (roc_curve_struct y s Hlen Hne)
    as [pts [Hadd [Hroc [Hpne [_ [Hlf [Hlt _]]]]]]].
  pose proof (roc_points_counts y s pts Hlen Hne Hadd) as Hc.
  rewrite (rates_num pts pt_fps (n_neg y) Hpne Hlf HN) in Hroc.
  rewrite (rates_num pts pt_tps (n_pos y) Hpne Hlt HP) in Hroc.
  exists (map pt_thr pts). rewrite Hroc, !map_map.
  f_equal. f_equal. f_equal; apply map_ext_in; intros p Hp'; destruct (Hc p Hp') as [E1 E2].
  - now rewrite E1.
  - now rewrite E2.
Qed.

Lemma roc_curve_counts_witness :
  length [3; 1; 2; 2]%Z = length [true; false; true; false] /\
  In true [true; false; true; false] /\ In false [true; false; true; false] /\
  exists thr,
    roc_curve [true; false; true; false] [3; 1; 2; 2]%Z =
      Ok (map (fun t => Num (ratio (count_ge false t
                  (combine [3; 1; 2; 2]%Z [true; false; true; false]))
                  (n_neg [true; false; true; false]))) thr,
          map (fun t => Num (ratio (count_ge true t
                  (combine [3; 1; 2; 2]%Z [true; false; true; false]))
                  (n_pos [true; false; true; false]))) thr,
          thr).
Proof.
  split; [reflexivity|]. split; [now left|]. split; [right; now left|].
  apply roc_curve_counts; [reflexivity | now left | right; now left].
Defined.

(** ** X: the thresholds of [roc_curve] *)

(** For a non-empty truth vector and scores of the same length, the first
    threshold is the highest score or the highest score plus one, and every
    later threshold is one of the scores. *)
Theorem roc_curve_thresholds (y : list bool) (s : list Z)
  (Hlen : length s = length y) (Hne : y <> []) :
  exists fpr tpr t0 thr,
    roc_curve y s = Ok (fpr, tpr, t0 :: thr) /\
    ((In t0 s /\ forall z, In z s -> (z <= t0)%Z) \/
     (In (t0 - 1)%Z s /\ forall z, In z s -> (z <= t0 - 1)%Z)) /\
    Forall (fun t => In t s) thr.
Proof.
  destruct (roc_curve_struct y s Hlen Hne) as [pts [Hadd [Hroc _]]].
  destruct (sort_desc_top s y Hlen Hne) as [s0 [b0 [rest [El [Hs0 Hmax]]]]].
  assert (Hthr : forall x, In x (clf_points (sort_desc (combine s y)) 0 0) ->
                 In (pt_thr x) s).
  { intros x Hx. apply clf_thr_in in Hx as [[z b] [He ->]].
    apply (Permutation_in _ (sort_desc_perm _)), in_combine_l in He. exact He. }
  rewrite El in Hthr, Hadd.
  assert (Hne0 : clf_points ((s0, b0) :: rest) 0 0 <> []).
  { apply (clf_last _ 0 0 pt0). discriminate. }
  destruct (drop_shape _ pt0 Hne0) as [Hne1 [Hh1 _]].
  destruct (drop_intermediate (clf_points ((s0, b0) :: rest) 0 0)) as [|p r] eqn:Ed;
    [contradiction|].
  assert (Hsub : forall x, In x (p :: r) -> In (pt_thr x) s).
  { intros x Hx. apply Hthr. eapply subseq_In; [|exact Hx]. rewrite <- Ed. apply drop_subseq. }
  change (hd pt0 (p :: r)) with p in Hh1.
  assert (Ht : pt_thr p = s0) by (rewrite Hh1; apply clf_hd_thr).
  unfold add_start in Hadd.
  destruct (Nat.eqb (pt_fps p) 0); injection Hadd as <-; rewrite Hroc.
  - do 4 eexists. split; [reflexivity|]. split.
    + left. rewrite Ht. split; assumption.
    + apply Forall_forall. intros t Hti. apply in_map_iff in Hti as [x [<- Hx]].
      apply Hsub. now right.
  - do 4 eexists. split; [reflexivity|]. split.
    + right. cbn [pt_thr snd]. rewrite Ht.
      replace (s0 + 1 - 1)%Z with s0 by lia. split; assumption.
    + apply Forall_forall. intros t Hti.
      change (In t (map pt_thr (p :: r))) in Hti.
      apply in_map_iff in Hti as [x [<- Hx]]. now apply Hsub.
Qed.

Lemma roc_curve_thresholds_witness :
  length [3; 1; 2]%Z = length [false; true; true] /\ [false; true; true] <> [] /\
  exists fpr tpr t0 thr,
    roc_curve [false; true; true] [3; 1; 2]%Z = Ok (fpr, tpr, t0 :: thr) /\
    ((In t0 [3; 1; 2]%Z /\ forall z, In z [3; 1; 2]%Z -> (z <= t0)%Z) \/
     (In (t0 - 1)%Z [3; 1; 2]%Z /\ forall z, In z [3; 1; 2]%Z -> (z <= t0 - 1)%Z)) /\
    Forall (fun t => In t [3; 1; 2]%Z) thr.
Proof.
  split; [reflexivity|]. split; [discriminate|].
  apply roc_curve_thresholds; [reflexivity | discriminate].
Defined.

(** ** Lemmas: the area under the curve as a count of pairs *)

Fixpoint zsum (l : list Z) : Z :=
  match l with
  | [] => 0%Z
  | x :: r => (x + zsum r)%Z
  end.

(** Twice the weight of a (positive, negative) pair: 2 when the positive
    scores higher, 1 on a tie, 0 when it scores lower. *)
Definition pair_w (p n : Z * bool) : Z :=
  if Z.ltb (fst n) (fst p) then 2%Z else if Z.eqb (fst n) (fst p) then 1%Z else 0%Z.

(** The weights of a record [p] against the negatives of [l], and of a
    record [n] against the positives of [l]. *)
Definition inner (l : list (Z * bool)) (p : Z * bool) : Z :=
  zsum (map (fun n : Z * bool => if snd n then 0%Z else pair_w p n) l).
Definition outer (l : list (Z * bool)) (n : Z * bool) : Z :=
  zsum (map (fun p : Z * bool => if snd p then pair_w p n else 0%Z) l).

(** Twice the Mann-Whitney count of the records: over all (positive,
    negative) pairs, 1 when the positive scores higher, 1/2 on a tie. *)
Definition mw2 (l : list (Z * bool)) : Z :=
  zsum (map (fun p : Z * bool => if snd p then inner l p else 0%Z) l).

(** Twice the trapezoid between two curve points, in counts. *)
Definition seg2 (a b : pt) : Z :=
  ((Z.of_nat (pt_fps b) - Z.of_nat (pt_fps a))
   * (Z.of_nat (pt_tps a) + Z.of_nat (pt_tps b)))%Z.

Fixpoint area2 (pts : list pt) : Z :=
  match pts with
  | a :: ((b :: _) as r) => (seg2 a b + area2 r)%Z
  | _ => 0%Z
  end.

(** Zero when [k], [a], [b] are collinear. *)
Definition cross (k a b : pt) : Z :=
  ((Z.of_nat (pt_fps a) - Z.of_nat (pt_fps k)) * (Z.of_nat (pt_tps b) - Z.of_nat (pt_tps k))
   - (Z.of_nat (pt_tps a) - Z.of_nat (pt_tps k)) * (Z.of_nat (pt_fps b) - Z.of_nat (pt_fps k)))%Z.

Lemma zsum_perm l l' : Permutation l l' -> zsum l = zsum l'.
Proof. induction 1; simpl; lia. Qed.

Lemma inner_cons x l p :
  inner (x :: l) p = ((if snd x then 0 else pair_w p x) + inner l p)%Z.
Proof. reflexivity. Qed.

Lemma outer_cons x l n :
  outer (x :: l) n = ((if snd x then pair_w x n else 0) + outer l n)%Z.
Proof. reflexivity. Qed.

Lemma inner_perm l l' p : Permutation l l' -> inner l p = inner l' p.
Proof. intros H. unfold inner. apply zsum_perm, Permutation_map, H. Qed.

Lemma mw2_perm l l' : Permutation l l' -> mw2 l = mw2 l'.
Proof.
  intros H. unfold mw2. rewrite (zsum_perm _ _ (Permutation_map _ H)).
  f_equal. apply map_ext. intros p. destruct (snd p); [now apply inner_perm | reflexivity].
Qed.

Lemma mw2_cons x r :
  mw2 (x :: r) = (mw2 r + (if snd x then inner r x else outer r x))%Z.
Proof.
  assert (Ho : forall m,
    zsum (map (fun p : Z * bool => if snd p then inner (x :: r) p else 0%Z) m)
    = (zsum (map (fun p : Z * bool => if snd p then inner r p else 0%Z) m)
       + (if snd x then 0 else outer m x))%Z).
  { induction m as [|q m IH]; [simpl; destruct (snd x); reflexivity|].
    simpl map. cbn [zsum]. rewrite IH, inner_cons, outer_cons.
    destruct (snd q), (snd x); lia. }
  unfold mw2 at 1. simpl map. cbn [zsum]. rewrite Ho, inner_cons. unfold mw2.
  destruct (snd x); lia.
Qed.

Lemma inner_below r s b :
  Forall (fun e => (fst e < s)%Z) r -> inner r (s, b) = (2 * Z.of_nat (negs r))%Z.
Proof.
  induction 1 as [|[z b'] r Hx _ IH]; [reflexivity|].
  rewrite inner_cons, negs_cons, IH. simpl in Hx. unfold pair_w. simpl fst.
  destruct (Z.ltb_spec z s); [|lia]. destruct b'; cbn [snd]; lia.
Qed.

Lemma outer_below r s b :
  Forall (fun e => (fst e < s)%Z) r -> outer r (s, b) = 0%Z.
Proof.
  induction 1 as [|[z b'] r Hx _ IH]; [reflexivity|].
  rewrite outer_cons, IH. simpl in Hx. unfold pair_w. simpl fst.
  destruct (Z.ltb_spec s z); [lia|]. destruct (Z.eqb_spec s z); [lia|].
  destruct b'; reflexivity.
Qed.

(** Walking down the sorted records from the last emitted point
    [(F, T)], with [n] negatives and [p] positives of the current run of
    equal scores already passed, the remaining curve adds twice the
    area below it as a count of pairs. *)
Lemma clf_area l : forall (F T n p : nat) th,
  StronglySorted (fun a b => score_le b a) l -> (l = [] -> n = O /\ p = O) ->
  area2 ((F, T, th) :: clf_points l (F + n) (T + p)) =
  (2 * Z.of_nat T * (Z.of_nat n + Z.of_nat (negs l)) + Z.of_nat n * Z.of_nat p
   + Z.of_nat p * inner l (fst (hd (0%Z, true) l), true)
   + Z.of_nat n * outer l (fst (hd (0%Z, true) l), false) + mw2 l)%Z.
Proof.
  induction l as [|[s b] rest IH]; intros F T n p th Hs H0.
  - destruct (H0 eq_refl) as [-> ->]. cbn [clf_points area2].
    unfold negs, inner, outer, mw2. cbn [filter length map zsum]. lia.
  - apply StronglySorted_inv in Hs as [Hr Hh].
    destruct rest as [|[s2 b2] r].
    + assert (Ep : clf_points [(s, b)] (F + n) (T + p)
                   = [((if b then (F + n)%nat else S (F + n)),
                       (if b then S (T + p) else (T + p)%nat), s)])
        by reflexivity.
      rewrite Ep. cbn [area2 hd fst]. unfold seg2, pt_fps, pt_tps. cbn [fst snd].
      rewrite mw2_cons, !inner_cons, !outer_cons, negs_cons. unfold pair_w. cbn [fst snd].
      rewrite Z.ltb_irrefl, Z.eqb_refl. unfold negs, mw2, inner, outer. destruct b; cbn [snd filter length map zsum negb]; lia.
    + rewrite clf_points_cons2. cbn [hd fst].
      destruct (Z.eqb s s2) eqn:E.
      * apply Z.eqb_eq in E. subst s2.
        assert (Ef : (if b then (F + n)%nat else S (F + n)) = (F + (if b then n else S n))%nat)
          by (destruct b; lia).
        assert (Et : (if b then S (T + p) else (T + p)%nat) = (T + (if b then S p else p))%nat)
          by (destruct b; lia).
        rewrite Ef, Et, IH by (exact Hr || discriminate).
        cbn [hd fst].
        rewrite (mw2_cons (s, b) ((s, b2) :: r)), (inner_cons (s, b) ((s, b2) :: r)),
          (outer_cons (s, b) ((s, b2) :: r)), (negs_cons s b ((s, b2) :: r)).
        unfold pair_w. cbn [fst snd]. rewrite Z.ltb_irrefl, Z.eqb_refl.
        destruct b; cbn [snd]; lia.
      * assert (Hlt : Forall (fun e => (fst e < s)%Z) ((s2, b2) :: r)).
        { apply Z.eqb_neq in E. inversion Hh as [|? ? H2 _]; subst.
          unfold score_le in H2; simpl in H2.
          apply StronglySorted_inv in Hr as [_ Hr2]. constructor; [simpl; lia|].
          eapply Forall_impl; [|exact Hr2]. intros e He. unfold score_le in He; simpl in He. lia. }
        set (fp' := if b then (F + n)%nat else S (F + n)).
        set (tp' := if b then S (T + p) else (T + p)%nat).
        pose proof (IH fp' tp' 0%nat 0%nat s Hr (fun _ => conj eq_refl eq_refl)) as Hi.
        rewrite !Nat.add_0_r in Hi.
        assert (Ea : area2 ((F, T, th) :: (fp', tp', s) :: clf_points ((s2, b2) :: r) fp' tp')
                     = (seg2 (F, T, th) (fp', tp', s)
                        + area2 ((fp', tp', s) :: clf_points ((s2, b2) :: r) fp' tp'))%Z)
          by reflexivity.
        rewrite Ea, Hi. cbn [hd fst].
        rewrite (mw2_cons (s, b) ((s2, b2) :: r)), (inner_cons (s, b) ((s2, b2) :: r)),
          (outer_cons (s, b) ((s2, b2) :: r)), (negs_cons s b ((s2, b2) :: r)).
        rewrite !(inner_below _ _ _ Hlt), !(outer_below _ _ _ Hlt).
        unfold seg2, pt_fps, pt_tps, pair_w, fp', tp'. cbn [fst snd].
        rewrite Z.ltb_irrefl, Z.eqb_refl. destruct b; cbn [snd]; lia.
Qed.

Lemma seg2_split k a b : (seg2 k a + seg2 a b = seg2 k b - cross k a b)%Z.
Proof. unfold seg2, cross. ring. Qed.

Lemma seg2_same a : seg2 a a = 0%Z.
Proof. unfold seg2. lia. Qed.

Lemma kc_area r : forall k a b, cross k a b = 0%Z ->
  area2 (k :: keep_corners (a :: b :: r) ++ [last (b :: r) a])
  = (seg2 k a + area2 (a :: b :: r))%Z.
Proof.
  induction r as [|c r IH]; intros k a b Hc.
  - simpl. pose proof (seg2_split k a b). lia.
  - assert (Ek : keep_corners (a :: b :: c :: r)
                 = if corner a b c then b :: keep_corners (b :: c :: r)
                   else keep_corners (b :: c :: r)) by reflexivity.
    assert (El : last (b :: c :: r) a = last (c :: r) b)
      by (change (last (c :: r) a = last (c :: r) b); apply last_default; discriminate).
    assert (Ea : area2 (a :: b :: c :: r) = (seg2 a b + area2 (b :: c :: r))%Z)
      by reflexivity.
    rewrite Ek, El, Ea. pose proof (seg2_split k a b) as Hsp.
    destruct (corner a b c) eqn:Ec.
    + cbn [app]. change (area2 (k :: b :: keep_corners (b :: c :: r) ++ [last (c :: r) b]))
        with (seg2 k b + area2 (b :: keep_corners (b :: c :: r) ++ [last (c :: r) b]))%Z.
      rewrite IH by (unfold cross; ring). rewrite seg2_same. lia.
    + unfold corner in Ec. apply orb_false_iff in Ec as [E1 E2].
      apply negb_false_iff, Nat.eqb_eq in E1, E2.
      rewrite IH; [lia|].
      unfold cross in *.
      assert (F1 : Z.of_nat (pt_fps c) = (2 * Z.of_nat (pt_fps b) - Z.of_nat (pt_fps a))%Z) by lia.
      assert (F2 : Z.of_nat (pt_tps c) = (2 * Z.of_nat (pt_tps b) - Z.of_nat (pt_tps a))%Z) by lia.
      rewrite F1, F2. rewrite <- Hc. ring.
Qed.

Lemma drop_area pts : area2 (drop_intermediate pts) = area2 pts.
Proof.
  destruct pts as [|p0 [|p1 [|p2 r]]]; try reflexivity.
  unfold drop_intermediate.
  change (last (p0 :: p1 :: p2 :: r) p0) with (last (p1 :: p2 :: r) p0).
  rewrite kc_area by (unfold cross; ring). rewrite seg2_same. reflexivity.
Qed.

(** The points returned after dropping collinear points and adding the
    start enclose the same area as the emitted points preceded by the
    origin. *)
Lemma start_area pts0 pts :
  pts0 <> [] -> add_start (drop_intermediate pts0) = Ok pts ->
  area2 pts = area2 (pt0 :: pts0).
Proof.
  intros Hne Hadd.
  pose proof (drop_area pts0) as Hda.
  destruct (drop_shape pts0 pt0 Hne) as [Hne1 [Hh1 _]].
  destruct pts0 as [|q rest]; [contradiction|].
  destruct (drop_intermediate (q :: rest)) as [|p r]; [contradiction|].
  simpl in Hh1. subst q.
  assert (E : area2 (pt0 :: p :: rest) = (seg2 pt0 p + area2 (p :: rest))%Z) by reflexivity.
  rewrite E, <- Hda.
  unfold add_start in Hadd.
  destruct (Nat.eqb (pt_fps p) 0) eqn:Ef; injection Hadd as <-.
  - apply Nat.eqb_eq in Ef. unfold seg2. rewrite Ef. simpl. lia.
  - reflexivity.
Qed.

Lemma ratio_div (x d : nat) :
  (0 < d)%nat -> ratio x d == inject_Z (Z.of_nat x) / inject_Z (Z.of_nat d).
Proof. intros Hd. unfold ratio. rewrite Qmake_Qdiv, pos_of_nat_Z by exact Hd. reflexivity. Qed.

Lemma inject_Z_nat_nz (d : nat) : (0 < d)%nat -> ~ inject_Z (Z.of_nat d) == 0.
Proof. intros Hd H. apply (proj1 (inject_Z_injective _ 0)) in H. lia. Qed.

(** The trapezoid sum of the normalised curve is the count area over
    [2 N P]. *)
Lemma trapezoid_area (N P : nat) (pts : list pt) :
  (0 < N)%nat -> (0 < P)%nat ->
  trapezoid_sum (map (fun p => ratio (pt_fps p) N) pts)
                (map (fun p => ratio (pt_tps p) P) pts)
  == inject_Z (area2 pts) / inject_Z (2 * Z.of_nat N * Z.of_nat P).
Proof.
  intros HN HP.
  pose proof (inject_Z_nat_nz N HN) as HNq. pose proof (inject_Z_nat_nz P HP) as HPq.
  induction pts as [|a r IH]; [simpl; unfold Qdiv; ring|].
  destruct r as [|b r]; [simpl; unfold Qdiv; ring|].
  assert (Et : trapezoid_sum (map (fun p => ratio (pt_fps p) N) (a :: b :: r))
                             (map (fun p => ratio (pt_tps p) P) (a :: b :: r))
               = (ratio (pt_fps b) N - ratio (pt_fps a) N)
                 * (ratio (pt_tps a) P + ratio (pt_tps b) P) / 2
                 + trapezoid_sum (map (fun p => ratio (pt_fps p) N) (b :: r))
                                 (map (fun p => ratio (pt_tps p) P) (b :: r)))
    by reflexivity.
  assert (Ea : area2 (a :: b :: r) = (seg2 a b + area2 (b :: r))%Z) by reflexivity.
  rewrite Et, IH, Ea, !(ratio_div _ _ HN), !(ratio_div _ _ HP).
  unfold seg2, Z.sub. rewrite !inject_Z_plus, !inject_Z_mult, !inject_Z_plus, !inject_Z_opp.
  field. repeat split; assumption.
Qed.

(** [roc_auc] on a two-class truth vector is the Mann-Whitney count over
    [2 N P]. *)
Lemma roc_auc_mw2 (y : list bool) (s : list Z) :
  length s = length y -> In true y -> In false y ->
  exists a, roc_auc y s = Ok (Num a) /\
    a == inject_Z (mw2 (combine s y)) / inject_Z (2 * Z.of_nat (n_neg y) * Z.of_nat (n_pos y)).
Proof.
  intros Hlen Hp Hn.
  assert (Hne : y <> []) by (destruct y; [contradiction | discriminate]).
  pose proof (n_neg_pos y Hn) as HN. pose proof (n_pos_pos y Hp) as HP.
  destruct (roc_curve_struct y s Hlen Hne)
    as [pts [Hadd [Hroc [Hpne [Hs [Hlf [Hlt H2]]]]]]].
  rewrite (rates_num pts pt_fps (n_neg y) Hpne Hlf HN) in Hroc.
  rewrite (rates_num pts pt_tps (n_pos y) Hpne Hlt HP) in Hroc.
  assert (Hsorted : Sorted Qle (map (fun p => ratio (pt_fps p) (n_neg y)) pts)).
  { apply StronglySorted_Sorted. eapply SS_map; [|exact Hs].
    intros a b Hab. apply ratio_le, pt_le_fps, Hab. }
  destruct (auc_sorted (map (fun p => ratio (pt_fps p) (n_neg y)) pts)
                       (map (fun p => ratio (pt_tps p) (n_pos y)) pts))
    as [a [Ha Hae]].
  { rewrite !length_map. reflexivity. }
  { rewrite length_map. now apply H2. }
  { exact Hsorted. }
  exists a. split; [unfold roc_auc; rewrite Hroc; exact Ha|].
  rewrite Hae, (trapezoid_area _ _ pts HN HP).
  assert (Harea : area2 pts = mw2 (combine s y)).
  { assert (Hperm : Permutation (sort_desc (combine s y)) (combine s y))
      by apply sort_desc_perm.
    pose proof (sort_desc_sorted (combine s y)) as Hsl.
    assert (Hl : sort_desc (combine s y) <> []).
    { intros E. apply Permutation_length in Hperm. rewrite E, length_combine in Hperm.
      destruct y; [contradiction|]. simpl in *. lia. }
    destruct (clf_last _ 0 0 pt0 Hl) as [H0 _].
    rewrite (start_area _ _ H0 Hadd).
    pose proof (clf_area (sort_desc (combine s y)) 0 0 0 0 0%Z Hsl
                  (fun _ => conj eq_refl eq_refl)) as Hc.
    change (area2 (pt0 :: clf_points (sort_desc (combine s y)) 0 0)
            = (2 * Z.of_nat 0 * (Z.of_nat 0 + Z.of_nat (negs (sort_desc (combine s y))))
               + Z.of_nat 0 * Z.of_nat 0
               + Z.of_nat 0 * inner (sort_desc (combine s y))
                   (fst (hd (0%Z, true) (sort_desc (combine s y))), true)
               + Z.of_nat 0 * outer (sort_desc (combine s y))
                   (fst (hd (0%Z, true) (sort_desc (combine s y))), false)
               + mw2 (sort_desc (combine s y)))%Z) in Hc.
    rewrite Hc, (mw2_perm _ _ Hperm). lia. }
  rewrite Harea. reflexivity.
Qed.

(** ** X: the area under the curve counts ordered pairs *)

(** For a two-class truth vector and scores of the same length,
    [roc_auc] is the fraction of (positive, negative) pairs in which the
    positive scores higher, a tie counting one half: [mw2] counts such a
    pair 2 and a tie 1, over [2 P N]. *)
Theorem roc_auc_pair_count (y : list bool) (s : list Z)
  (Hlen : length s = length y) (Hp : In true y) (Hn : In false y) :
  exists a, roc_auc y s = Ok (Num a) /\
    a == inject_Z (mw2 (combine s y)) / inject_Z (2 * Z.of_nat (n_pos y) * Z.of_nat (n_neg y)).
Proof.
  destruct (roc_auc_mw2 y s Hlen Hp Hn) as [a [Ha Hae]].
  exists a. split; [exact Ha|]. rewrite Hae.
  replace (2 * Z.of_nat (n_pos y) * Z.of_nat (n_neg y))%Z
    with (2 * Z.of_nat (n_neg y) * Z.of_nat (n_pos y))%Z by ring.
  reflexivity.
Qed.

Lemma roc_auc_pair_count_witness :
  length [1; 2; 2; 3]%Z = length [false; true; false; true] /\
  In true [false; true; false; true] /\ In false [false; true; false; true] /\
  exists a, roc_auc [false; true; false; true] [1; 2; 2; 3]%Z = Ok (Num a) /\
    a == inject_Z (mw2 (combine [1; 2; 2; 3]%Z [false; true; false; true]))
         / inject_Z (2 * Z.of_nat (n_pos [false; true; false; true])
                       * Z.of_nat (n_neg [false; true; false; true])).
Proof.
  split; [reflexivity|]. split; [right; now left|]. split; [now left|].
  apply roc_auc_pair_count; [reflexivity | right; now left | now left].
Defined.

(** ** Lemmas: reversed, constant and boolean scores *)

Lemma pair_w_opp p n :
  (pair_w (map_score Z.opp p) (map_score Z.opp n) + pair_w p n = 2)%Z.
Proof.
  unfold pair_w, map_score. cbn [fst].
  destruct (Z.ltb_spec (- fst n) (- fst p)), (Z.eqb_spec (- fst n) (- fst p)),
    (Z.ltb_spec (fst n) (fst p)), (Z.eqb_spec (fst n) (fst p)); lia.
Qed.

Lemma inner_opp l p :
  (inner (map (map_score Z.opp) l) (map_score Z.opp p) + inner l p
   = 2 * Z.of_nat (negs l))%Z.
Proof.
  induction l as [|[z b] l IH]; [reflexivity|].
  change (map (map_score Z.opp) ((z, b) :: l))
    with (map_score Z.opp (z, b) :: map (map_score Z.opp) l).
  rewrite !inner_cons, negs_cons. pose proof (pair_w_opp p (z, b)) as H.
  change (snd (map_score Z.opp (z, b))) with b. cbn [snd].
  destruct b; lia.
Qed.

Lemma mw2_opp l :
  (mw2 (map (map_score Z.opp) l) + mw2 l = 2 * Z.of_nat (poss l) * Z.of_nat (negs l))%Z.
Proof.
  unfold mw2.
  assert (H : forall m,
    (zsum (map (fun p : Z * bool => if snd p then inner (map (map_score Z.opp) l) p else 0%Z)
               (map (map_score Z.opp) m))
     + zsum (map (fun p : Z * bool => if snd p then inner l p else 0%Z) m)
     = 2 * Z.of_nat (poss m) * Z.of_nat (negs l))%Z).
  { induction m as [|[z b] m IH]; [reflexivity|].
    change (map (map_score Z.opp) ((z, b) :: m))
      with (map_score Z.opp (z, b) :: map (map_score Z.opp) m).
    cbn [map zsum]. change (snd (map_score Z.opp (z, b))) with b.
    rewrite poss_cons. pose proof (inner_opp l (z, b)) as Hi. cbn [snd].
    destruct b; lia. }
  apply H.
Qed.

Lemma inner_const l c p :
  Forall (fun e => fst e = c) l -> fst p = c -> inner l p = Z.of_nat (negs l).
Proof.
  intros H Hp. induction H as [|[z b] l Hx _ IH]; [reflexivity|].
  rewrite inner_cons, negs_cons, IH. simpl in Hx. subst c.
  unfold pair_w. cbn [fst]. rewrite Hp, Z.ltb_irrefl, Z.eqb_refl.
  destruct b; cbn [snd]; lia.
Qed.

Lemma mw2_const l c :
  Forall (fun e => fst e = c) l -> mw2 l = (Z.of_nat (poss l) * Z.of_nat (negs l))%Z.
Proof.
  intros H. unfold mw2.
  assert (Hm : forall m, Forall (fun e => fst e = c) m ->
    zsum (map (fun p : Z * bool => if snd p then inner l p else 0%Z) m)
    = (Z.of_nat (poss m) * Z.of_nat (negs l))%Z).
  { induction 1 as [|[z b] m Hx _ IH]; [reflexivity|].
    cbn [map zsum]. rewrite IH, poss_cons.
    destruct b; cbn [snd]; [rewrite (inner_const l c (z, true) H Hx)|]; lia. }
  apply Hm, H.
Qed.

Lemma count_pair_cons t p a b y yh :
  count_pair t p (a :: y) (b :: yh)
  = ((if Bool.eqb a t && Bool.eqb b p then 1 else 0) + count_pair t p y yh)%nat.
Proof. unfold count_pair. simpl. destruct (Bool.eqb a t && Bool.eqb b p); reflexivity. Qed.

Lemma inner_binary y yh z b :
  length yh = length y ->
  inner (combine (map b2z yh) y) (b2z z, b)
  = if z then (2 * Z.of_nat (count_pair false false y yh)
               + Z.of_nat (count_pair false true y yh))%Z
    else Z.of_nat (count_pair false false y yh).
Proof.
  revert yh; induction y as [|a y IH]; intros [|h yh] Hl; simpl in Hl; try lia.
  - destruct z; reflexivity.
  - change (combine (map b2z (h :: yh)) (a :: y))
      with ((b2z h, a) :: combine (map b2z yh) y).
    rewrite inner_cons, !count_pair_cons, IH by lia. rewrite !Nat2Z.inj_add.
    unfold pair_w, b2z. destruct z, h, a;
      cbn [Bool.eqb andb fst snd Z.ltb Z.eqb Z.compare Pos.compare Pos.compare_cont Pos.eqb]; lia.
Qed.

Lemma mw2_binary y yh :
  length yh = length y ->
  mw2 (combine (map b2z yh) y)
  = (2 * Z.of_nat (count_pair true true y yh) * Z.of_nat (count_pair false false y yh)
     + Z.of_nat (count_pair true true y yh) * Z.of_nat (count_pair false true y yh)
     + Z.of_nat (count_pair true false y yh) * Z.of_nat (count_pair false false y yh))%Z.
Proof.
  intros Hl. unfold mw2.
  assert (H : forall y' yh', length yh' = length y' ->
    zsum (map (fun p : Z * bool => if snd p then inner (combine (map b2z yh) y) p else 0%Z)
              (combine (map b2z yh') y'))
    = (Z.of_nat (count_pair true true y' yh')
         * (2 * Z.of_nat (count_pair false false y yh) + Z.of_nat (count_pair false true y yh))
       + Z.of_nat (count_pair true false y' yh') * Z.of_nat (count_pair false false y yh))%Z).
  { induction y' as [|a y' IH]; intros [|h yh'] Hl'; simpl in Hl'; try lia.
    - reflexivity.
    - change (combine (map b2z (h :: yh')) (a :: y'))
        with ((b2z h, a) :: combine (map b2z yh') y').
      cbn [map zsum]. rewrite !count_pair_cons, IH by lia. rewrite !Nat2Z.inj_add.
      cbn [snd]. destruct a; [rewrite (inner_binary y yh h true Hl)|];
        destruct h; cbn [Bool.eqb andb]; lia. }
  rewrite (H y yh Hl). lia.
Qed.

Lemma n_pos_split y yh :
  length yh = length y ->
  n_pos y = (count_pair true true y yh + count_pair true false y yh)%nat.
Proof.
  revert yh; induction y as [|a y IH]; intros [|h yh] Hl; simpl in Hl; try lia.
  - reflexivity.
  - rewrite !count_pair_cons. specialize (IH yh ltac:(lia)). unfold n_pos in *.
    destruct a, h; simpl; lia.
Qed.

Lemma n_neg_split y yh :
  length yh = length y ->
  n_neg y = (count_pair false true y yh + count_pair false false y yh)%nat.
Proof.
  revert yh; induction y as [|a y IH]; intros [|h yh] Hl; simpl in Hl; try lia.
  - reflexivity.
  - rewrite !count_pair_cons. specialize (IH yh ltac:(lia)). unfold n_neg in *.
    destruct a, h; simpl; lia.
Qed.

(** ** X: reversing the score *)

(** For a two-class truth vector, negating every score turns the AUC
    [a] into [1 - a]. *)
Theorem roc_auc_negated_scores (y : list bool) (s : list Z)
  (Hlen : length s = length y) (Hp : In true y) (Hn : In false y) :
  exists a a', roc_auc y s = Ok (Num a) /\ roc_auc y (map Z.opp s) = Ok (Num a') /\
    a' == 1 - a.
Proof.
  pose proof (n_neg_pos y Hn) as HN. pose proof (n_pos_pos y Hp) as HP.
  pose proof (inject_Z_nat_nz _ HN) as HNq. pose proof (inject_Z_nat_nz _ HP) as HPq.
  destruct (roc_auc_mw2 y s Hlen Hp Hn) as [a [Ha Hae]].
  assert (Hlen' : length (map Z.opp s) = length y) by (rewrite length_map; exact Hlen).
  destruct (roc_auc_mw2 y (map Z.opp s) Hlen' Hp Hn) as [a' [Ha' Hae']].
  exists a, a'. split; [exact Ha|]. split; [exact Ha'|].
  rewrite Hae', Hae, combine_map_score.
  pose proof (mw2_opp (combine s y)) as Hm.
  rewrite (negs_combine s y Hlen), (poss_combine s y Hlen) in Hm.
  change (length (filter negb y)) with (n_neg y) in Hm.
  change (length (filter (fun b => b) y)) with (n_pos y) in Hm.
  assert (E : mw2 (map (map_score Z.opp) (combine s y))
              = (2 * Z.of_nat (n_pos y) * Z.of_nat (n_neg y) - mw2 (combine s y))%Z) by lia.
  rewrite E. unfold Z.sub. rewrite !inject_Z_plus, !inject_Z_mult, inject_Z_opp.
  field. split; assumption.
Qed.

Lemma roc_auc_negated_scores_witness :
  length [1; 2; 2; 3]%Z = length [false; true; false; true] /\
  In true [false; true; false; true] /\ In false [false; true; false; true] /\
  exists a a', roc_auc [false; true; false; true] [1; 2; 2; 3]%Z = Ok (Num a) /\
    roc_auc [false; true; false; true] (map Z.opp [1; 2; 2; 3]%Z) = Ok (Num a') /\
    a' == 1 - a.
Proof.
  split; [reflexivity|]. split; [right; now left|]. split; [now left|].
  apply roc_auc_negated_scores; [reflexivity | right; now left | now left].
Defined.

(** ** X: a constant score *)

(** For a two-class truth vector, a score that is the same for every
    record gives an AUC of 1/2. *)
Theorem roc_auc_constant_score (y : list bool) (c : Z)
  (Hp : In true y) (Hn : In false y) :
  exists a, roc_auc y (repeat c (length y)) = Ok (Num a) /\ a == 1 # 2.
Proof.
  pose proof (n_neg_pos y Hn) as HN. pose proof (n_pos_pos y Hp) as HP.
  pose proof (inject_Z_nat_nz _ HN) as HNq. pose proof (inject_Z_nat_nz _ HP) as HPq.
  assert (Hlen : length (repeat c (length y)) = length y) by apply repeat_length.
  destruct (roc_auc_mw2 y _ Hlen Hp Hn) as [a [Ha Hae]].
  exists a. split; [exact Ha|]. rewrite Hae.
  assert (Hc : Forall (fun e => fst e = c) (combine (repeat c (length y)) y)).
  { apply Forall_forall. intros [z b] Hz. apply in_combine_l, repeat_spec in Hz. exact Hz. }
  rewrite (mw2_const _ c Hc), (negs_combine _ _ Hlen), (poss_combine _ _ Hlen).
  change (length (filter negb y)) with (n_neg y).
  change (length (filter (fun b => b) y)) with (n_pos y).
  rewrite !inject_Z_mult. field. split; assumption.
Qed.

Lemma roc_auc_constant_score_witness :
  In true [true; false; false] /\ In false [true; false; false] /\
  exists a, roc_auc [true; false; false] (repeat 7%Z (length [true; false; false]))
            = Ok (Num a) /\ a == 1 # 2.
Proof.
  split; [now left|]. split; [right; now left|].
  apply roc_auc_constant_score; [now left | right; now left].
Defined.

(** ** X: the AUC of the sepsis-3 rule in cell 9 *)

(** When the outcome has both classes, the third AUC of cell 9, computed
    on the boolean rule [qsofa >= 2 & sofa >= 2] of cell 5, is the mean of
    the rule's sensitivity tp/P and specificity tn/N. *)
Theorem notebook_rule_auc (df : cohort)
  (Hp : In true (outcome_y df)) (Hn : In false (outcome_y df)) :
  exists yh a,
    yhat df = Ok yh /\
    nth 2 (nb_aucs (notebook df)) (Err IndexError) = Ok (Num a) /\
    a == (ratio (count_pair true true (outcome_y df) yh) (n_pos (outcome_y df))
          + ratio (count_pair false false (outcome_y df) yh) (n_neg (outcome_y df))) / 2.
Proof.
  set (y := outcome_y df) in *.
  pose proof (n_neg_pos y Hn) as HN. pose proof (n_pos_pos y Hp) as HP.
  pose proof (inject_Z_nat_nz _ HN) as HNq. pose proof (inject_Z_nat_nz _ HP) as HPq.
  destruct (yhat_length df) as [yh [Hy Hl]].
  assert (Hlen : length yh = length y) by (unfold y; rewrite outcome_y_length; exact Hl).
  assert (Hlen' : length (map b2z yh) = length y) by (rewrite length_map; exact Hlen).
  destruct (roc_auc_mw2 y (map b2z yh) Hlen' Hp Hn) as [a [Ha Hae]].
  exists yh, a. split; [exact Hy|]. split.
  - change (nth 2 (nb_aucs (notebook df)) (Err IndexError))
      with (bind (yhat df) (fun v => roc_auc y (map b2z v))).
    rewrite Hy. exact Ha.
  - rewrite Hae, (ratio_div _ _ HP), (ratio_div _ _ HN).
    assert (HM : mw2 (combine (map b2z yh) y)
                 = (Z.of_nat (count_pair true true y yh) * Z.of_nat (n_neg y)
                    + Z.of_nat (count_pair false false y yh) * Z.of_nat (n_pos y))%Z).
    { rewrite (mw2_binary y yh Hlen), (n_neg_split y yh Hlen), (n_pos_split y yh Hlen),
        !Nat2Z.inj_add. ring. }
    rewrite HM, !inject_Z_plus, !inject_Z_mult. field. split; assumption.
Qed.

Lemma notebook_rule_auc_witness :
  let df := [ {| qsofa := 2; sofa := 3; sirs := 0; lods := 0; angus := 1; sepsis3 := true |};
              {| qsofa := 1; sofa := 4; sirs := 0; lods := 0; angus := 1; sepsis3 := true |};
              {| qsofa := 3; sofa := 2; sirs := 0; lods := 0; angus := 0; sepsis3 := true |};
              {| qsofa := 0; sofa := 0; sirs := 0; lods := 0; angus := 0; sepsis3 := false |} ]%Z in
  In true (outcome_y df) /\ In false (outcome_y df) /\
  exists yh a,
    yhat df = Ok yh /\
    nth 2 (nb_aucs (notebook df)) (Err IndexError) = Ok (Num a) /\
    a == (ratio (count_pair true true (outcome_y df) yh) (n_pos (outcome_y df))
          + ratio (count_pair false false (outcome_y df) yh) (n_neg (outcome_y df))) / 2.
Proof.
  intros df. split; [now left|]. split; [right; right; now left|].
  apply notebook_rule_auc; [now left | right; right; now left].
Defined.

(** ** Lemmas: the qSOFA histograms of cell 12 *)

(** Number of entries equal to [k]. *)
Definition value_count (k : Z) (v : list Z) : nat := length (filter (Z.eqb k) v).

(** Number of patients of the outcome group [b] whose qSOFA is [k]. *)
Definition grp_count (df : cohort) (b : bool) (k : Z) : nat :=
  length (filter (fun r => Bool.eqb (Z.eqb (angus r) 1) b && Z.eqb (qsofa r) k) df).

(** The qSOFA column of an outcome group. *)
Definition group (df : cohort) (b : bool) : list Z :=
  map qsofa (filter (fun r => Bool.eqb (Z.eqb (angus r) 1) b) df).

Ltac qsofa_cases x :=
  let Hc := fresh "Hc" in
  assert (Hc : x = 0%Z \/ x = 1%Z \/ x = 2%Z \/ x = 3%Z) by lia;
  destruct Hc as [-> | [-> | [-> | ->]]].

Section Edges.
Variable v : list Z.
Hypothesis Hv : Forall (fun x => (0 <= x <= 3)%Z) v.

Lemma edge0 : searchsorted_left v ((-1) # 2) = O.
Proof.
  induction Hv as [|x w Hx Hw IH]; [reflexivity|]. specialize (IH Hw).
  qsofa_cases x; unfold searchsorted_left in *; simpl in *; lia.
Qed.

Lemma edge1 : searchsorted_left v (1 # 2) = value_count 0 v.
Proof.
  induction Hv as [|x w Hx Hw IH]; [reflexivity|]. specialize (IH Hw).
  qsofa_cases x; unfold searchsorted_left, value_count in *; simpl in *; lia.
Qed.

Lemma edge2 : searchsorted_left v (3 # 2) = (value_count 0 v + value_count 1 v)%nat.
Proof.
  induction Hv as [|x w Hx Hw IH]; [reflexivity|]. specialize (IH Hw).
  qsofa_cases x; unfold searchsorted_left, value_count in *; simpl in *; lia.
Qed.

Lemma edge3 :
  searchsorted_left v (5 # 2) = (value_count 0 v + value_count 1 v + value_count 2 v)%nat.
Proof.
  induction Hv as [|x w Hx Hw IH]; [reflexivity|]. specialize (IH Hw).
  qsofa_cases x; unfold searchsorted_left, value_count in *; simpl in *; lia.
Qed.

Lemma edge4 :
  searchsorted_right v (7 # 2)
  = (value_count 0 v + value_count 1 v + value_count 2 v + value_count 3 v)%nat.
Proof.
  induction Hv as [|x w Hx Hw IH]; [reflexivity|]. specialize (IH Hw).
  qsofa_cases x; unfold searchsorted_right, value_count in *; simpl in *; lia.
Qed.

Lemma length_03 :
  length v = (value_count 0 v + value_count 1 v + value_count 2 v + value_count 3 v)%nat.
Proof.
  induction Hv as [|x w Hx Hw IH]; [reflexivity|]. specialize (IH Hw).
  qsofa_cases x; unfold value_count in *; simpl in *; lia.
Qed.

Lemma histogram_counts_03 :
  histogram_counts v xi = [Z.of_nat (value_count 0 v); Z.of_nat (value_count 1 v);
                           Z.of_nat (value_count 2 v); Z.of_nat (value_count 3 v)].
Proof.
  unfold histogram_counts.
  change (cum_counts v xi)
    with [Z.of_nat (searchsorted_left v ((-1) # 2)); Z.of_nat (searchsorted_left v (1 # 2));
          Z.of_nat (searchsorted_left v (3 # 2)); Z.of_nat (searchsorted_left v (5 # 2));
          Z.of_nat (searchsorted_right v (7 # 2))].
  rewrite edge0, edge1, edge2, edge3, edge4. cbn [zdiff].
  repeat f_equal; lia.
Qed.

(** On a non-empty group, the normalised histogram is the share of each
    qSOFA value in the group. *)
Lemma hist_normed_03 :
  v <> [] ->
  Forall2 (fun x k => exists q, x = Num q /\
             q == inject_Z (Z.of_nat (value_count k v)) / inject_Z (Z.of_nat (length v)))
          (hist_normed v xi) [0; 1; 2; 3]%Z.
Proof.
  intros Hne.
  assert (HL : (0 < length v)%nat) by (destruct v; [contradiction | simpl; lia]).
  pose proof (inject_Z_nat_nz _ HL) as HLq.
  unfold hist_normed. rewrite histogram_counts_03.
  set (tot := qsum (map inject_Z [Z.of_nat (value_count 0 v); Z.of_nat (value_count 1 v);
                                  Z.of_nat (value_count 2 v); Z.of_nat (value_count 3 v)])).
  assert (Ht : tot == inject_Z (Z.of_nat (length v))).
  { unfold tot. cbn [qsum map fold_right]. rewrite length_03, !Nat2Z.inj_add, !inject_Z_plus.
    ring. }
  destruct (Qeq_bool tot 0) eqn:E.
  { apply Qeq_bool_iff in E. rewrite Ht in E. contradiction. }
  change (qdiff xi) with [(1 # 2) - ((-1) # 2); (3 # 2) - (1 # 2); (5 # 2) - (3 # 2); (7 # 2) - (5 # 2)].
  cbn [combine map].
  repeat constructor; eexists; (split; [reflexivity|]); rewrite Ht; field; exact HLq.
Qed.

End Edges.

Lemma Forall2_map_impl {A B C} (P : A -> C -> Prop) (R : B -> C -> Prop) (g : A -> B)
  (l : list A) (ks : list C) :
  (forall x k, P x k -> R (g x) k) -> Forall2 P l ks -> Forall2 R (map g l) ks.
Proof. intros H. induction 1; constructor; auto. Qed.

Lemma Forall2_impl' {A C} (P R : A -> C -> Prop) (l : list A) (ks : list C) :
  (forall x k, P x k -> R x k) -> Forall2 P l ks -> Forall2 R l ks.
Proof. intros H. induction 1; constructor; auto. Qed.

(** The bar heights of a non-empty group are the percentages, among [N]
    patients, of the group's patients with each qSOFA value. *)
Lemma bars_03 (v : list Z) (N : nat) :
  Forall (fun x => (0 <= x <= 3)%Z) v -> v <> [] -> (0 < N)%nat ->
  Forall2 (fun x k => exists q, x = Num q /\
             q == 100 * inject_Z (Z.of_nat (value_count k v)) / inject_Z (Z.of_nat N))
          (bars (hist_normed v xi) N (length v)) [0; 1; 2; 3]%Z.
Proof.
  intros Hv Hne HN.
  assert (HL : (0 < length v)%nat) by (destruct v; [contradiction | simpl; lia]).
  pose proof (inject_Z_nat_nz _ HL) as HLq. pose proof (inject_Z_nat_nz _ HN) as HNq.
  unfold bars. eapply Forall2_map_impl; [|exact (hist_normed_03 v Hv Hne)].
  intros x k [q [-> Hq]]. destruct N as [|N']; [lia|].
  eexists. split; [reflexivity|]. rewrite Hq. field. split; assumption.
Qed.

Lemma mask_group (df : cohort) (b : bool) :
  bool_index (map qsofa df) (map (fun r => Bool.eqb (Z.eqb (angus r) 1) b) df)
  = Ok (group df b).
Proof.
  unfold bool_index, group. rewrite !length_map, Nat.eqb_refl. f_equal.
  induction df as [|r df IH]; [reflexivity|]. simpl.
  destruct (Bool.eqb (Z.eqb (angus r) 1) b); simpl; [f_equal|]; exact IH.
Qed.

Lemma mask_alive (df : cohort) :
  map negb (outcome_y df) = map (fun r => Bool.eqb (Z.eqb (angus r) 1) false) df.
Proof.
  unfold outcome_y. rewrite map_map. apply map_ext. intros r. now destruct (Z.eqb (angus r) 1).
Qed.

Lemma mask_dead (df : cohort) :
  outcome_y df = map (fun r => Bool.eqb (Z.eqb (angus r) 1) true) df.
Proof.
  unfold outcome_y. apply map_ext. intros r. now destruct (Z.eqb (angus r) 1).
Qed.

Lemma cell12_groups (df : cohort) :
  cell12 df = Ok (bars (hist_normed (group df false) xi) (length df) (length (group df false)),
                  bars (hist_normed (group df true) xi) (length df) (length (group df true))).
Proof.
  unfold cell12. cbv zeta.
  rewrite mask_alive, mask_group. cbn [bind]. rewrite mask_dead at 1. rewrite mask_group.
  cbn [bind]. rewrite outcome_y_length. reflexivity.
Qed.

Lemma value_count_group (df : cohort) (b : bool) (k : Z) :
  value_count k (group df b) = grp_count df b k.
Proof.
  unfold value_count, group, grp_count.
  induction df as [|r df IH]; [reflexivity|]. simpl.
  destruct (Bool.eqb (Z.eqb (angus r) 1) b); simpl;
    [rewrite Z.eqb_sym; destruct (Z.eqb (qsofa r) k); simpl|]; lia.
Qed.

Lemma group_03 (df : cohort) (b : bool) :
  Forall (fun r => (0 <= qsofa r <= 3)%Z) df -> Forall (fun x => (0 <= x <= 3)%Z) (group df b).
Proof.
  intros H. unfold group. apply Forall_map. apply Forall_forall. intros r Hr.
  apply filter_In in Hr as [Hr _]. rewrite Forall_forall in H. exact (H r Hr).
Qed.

Lemma group_nonempty (df : cohort) (b : bool) :
  In b (outcome_y df) -> group df b <> [].
Proof.
  intros H. unfold outcome_y in H. apply in_map_iff in H as [r [Er Hr]].
  unfold group. intros E. apply map_eq_nil in E.
  assert (Hin : In r (filter (fun r => Bool.eqb (Z.eqb (angus r) 1) b) df)).
  { apply filter_In. split; [exact Hr|]. rewrite Er. apply eqb_reflx. }
  rewrite E in Hin. exact Hin.
Qed.

Lemma cell12_bars_counts (df : cohort) :
  Forall (fun r => (0 <= qsofa r <= 3)%Z) df ->
  In true (outcome_y df) -> In false (outcome_y df) ->
  exists b0 b1, cell12 df = Ok (b0, b1) /\
    Forall2 (fun x k => exists q, x = Num q /\
               q == 100 * inject_Z (Z.of_nat (grp_count df false k))
                    / inject_Z (Z.of_nat (length df))) b0 [0; 1; 2; 3]%Z /\
    Forall2 (fun x k => exists q, x = Num q /\
               q == 100 * inject_Z (Z.of_nat (grp_count df true k))
                    / inject_Z (Z.of_nat (length df))) b1 [0; 1; 2; 3]%Z.
Proof.
  intros Hq Hp Hn.
  assert (HN : (0 < length df)%nat).
  { destruct df; [contradiction | simpl; lia]. }
  eexists; eexists. split; [apply cell12_groups|].
  split; eapply Forall2_impl';
    [| apply (bars_03 _ _ (group_03 df false Hq) (group_nonempty df false Hn) HN)
     | | apply (bars_03 _ _ (group_03 df true Hq) (group_nonempty df true Hp) HN)];
    intros x k [q [Ex Eq]]; exists q; (split; [exact Ex|]);
    rewrite Eq, value_count_group; reflexivity.
Qed.

(** Every patient with a qSOFA in 0..3 is counted once, in its outcome
    group and its qSOFA value. *)
Lemma grp_count_total (df : cohort) :
  Forall (fun r => (0 <= qsofa r <= 3)%Z) df ->
  (grp_count df false 0 + grp_count df false 1 + grp_count df false 2 + grp_count df false 3
   + grp_count df true 0 + grp_count df true 1 + grp_count df true 2 + grp_count df true 3)%nat
  = length df.
Proof.
  unfold grp_count. induction 1 as [|r df Hr _ IH]; [reflexivity|].
  simpl. destruct (Z.eqb (angus r) 1); qsofa_cases (qsofa r); simpl; lia.
Qed.

Lemma Forall2_four {A C} (P : A -> C -> Prop) (l : list A) (a b c d : C) :
  Forall2 P l [a; b; c; d] ->
  exists x0 x1 x2 x3, l = [x0; x1; x2; x3] /\ P x0 a /\ P x1 b /\ P x2 c /\ P x3 d.
Proof.
  intros H.
  inversion H as [|x0 ? l1 ? P0 H1]; subst.
  inversion H1 as [|x1 ? l2 ? P1 H2]; subst.
  inversion H2 as [|x2 ? l3 ? P2 H3]; subst.
  inversion H3 as [|x3 ? l4 ? P3 H4]; subst.
  inversion H4; subst.
  exists x0, x1, x2, x3. repeat split; assumption.
Qed.

(** ** X: the bars of cell 12 *)

(** When every qSOFA value is in 0..3 and both outcome groups are
    non-empty, the k-th bar of each series of the second figure of cell 12
    (k = 0..3) is the percentage of all N patients that belong to that
    outcome group and have qSOFA k. *)
Theorem cell12_bar_percentages (df : cohort)
  (Hq : Forall (fun r => (0 <= qsofa r <= 3)%Z) df)
  (Hp : In true (outcome_y df)) (Hn : In false (outcome_y df)) :
  exists b0 b1, cell12 df = Ok (b0, b1) /\
    Forall2 (fun x k => exists q, x = Num q /\
               q == 100 * inject_Z (Z.of_nat (grp_count df false k))
                    / inject_Z (Z.of_nat (length df))) b0 [0; 1; 2; 3]%Z /\
    Forall2 (fun x k => exists q, x = Num q /\
               q == 100 * inject_Z (Z.of_nat (grp_count df true k))
                    / inject_Z (Z.of_nat (length df))) b1 [0; 1; 2; 3]%Z.
Proof. exact (cell12_bars_counts df Hq Hp Hn). Qed.

Definition cohort_demo : cohort :=
  [ {| qsofa := 2; sofa := 3; sirs := 0; lods := 0; angus := 1; sepsis3 := true |};
    {| qsofa := 1; sofa := 4; sirs := 0; lods := 0; angus := 1; sepsis3 := true |};
    {| qsofa := 3; sofa := 2; sirs := 0; lods := 0; angus := 0; sepsis3 := true |};
    {| qsofa := 0; sofa := 0; sirs := 0; lods := 0; angus := 0; sepsis3 := false |} ]%Z.

Lemma cohort_demo_qsofa : Forall (fun r => (0 <= qsofa r <= 3)%Z) cohort_demo.
Proof. repeat constructor; simpl; lia. Qed.

Lemma cell12_bar_percentages_witness :
  Forall (fun r => (0 <= qsofa r <= 3)%Z) cohort_demo /\
  In true (outcome_y cohort_demo) /\ In false (outcome_y cohort_demo) /\
  exists b0 b1, cell12 cohort_demo = Ok (b0, b1) /\
    Forall2 (fun x k => exists q, x = Num q /\
               q == 100 * inject_Z (Z.of_nat (grp_count cohort_demo false k))
                    / inject_Z (Z.of_nat (length cohort_demo))) b0 [0; 1; 2; 3]%Z /\
    Forall2 (fun x k => exists q, x = Num q /\
               q == 100 * inject_Z (Z.of_nat (grp_count cohort_demo true k))
                    / inject_Z (Z.of_nat (length cohort_demo))) b1 [0; 1; 2; 3]%Z.
Proof.
  split; [exact cohort_demo_qsofa|]. split; [now left|]. split; [right; right; now left|].
  apply cell12_bar_percentages; [exact cohort_demo_qsofa | now left | right; right; now left].
Defined.

(** ** X: the bars of cell 12 add up to 100 *)

(** When every qSOFA value is in 0..3 and both outcome groups are
    non-empty, the eight bars of the second figure of cell 12 are numbers
    that add up to 100 (percent of all patients). *)
Theorem cell12_bars_total (df : cohort)
  (Hq : Forall (fun r => (0 <= qsofa r <= 3)%Z) df)
  (Hp : In true (outcome_y df)) (Hn : In false (outcome_y df)) :
  exists b0 b1 qs, cell12 df = Ok (b0, b1) /\ b0 ++ b1 = map Num qs /\ qsum qs == 100.
Proof.
  assert (HN : (0 < length df)%nat) by (destruct df; [contradiction | simpl; lia]).
  pose proof (inject_Z_nat_nz _ HN) as HNq.
  destruct (cell12_bars_counts df Hq Hp Hn) as [b0 [b1 [Hc [H0 H1]]]].
  apply Forall2_four in H0 as [x0 [x1 [x2 [x3 [-> [[q0 [-> E0]] [[q1 [-> E1]]
                                  [[q2 [-> E2]] [q3 [-> E3]]]]]]]]]].
  apply Forall2_four in H1 as [z0 [z1 [z2 [z3 [-> [[r0 [-> F0]] [[r1 [-> F1]]
                                  [[r2 [-> F2]] [r3 [-> F3]]]]]]]]]].
  exists [Num q0; Num q1; Num q2; Num q3], [Num r0; Num r1; Num r2; Num r3],
         [q0; q1; q2; q3; r0; r1; r2; r3].
  split; [exact Hc|]. split; [reflexivity|].
  cbn [qsum fold_right]. rewrite E0, E1, E2, E3, F0, F1, F2, F3.
  pose proof (grp_count_total df Hq) as Ht.
  assert (HZ : Z.of_nat (length df)
               = (Z.of_nat (grp_count df false 0) + Z.of_nat (grp_count df false 1)
                  + Z.of_nat (grp_count df false 2) + Z.of_nat (grp_count df false 3)
                  + Z.of_nat (grp_count df true 0) + Z.of_nat (grp_count df true 1)
                  + Z.of_nat (grp_count df true 2) + Z.of_nat (grp_count df true 3))%Z)
    by lia.
  rewrite HZ in HNq |- *. rewrite !inject_Z_plus in HNq |- *.
  field. exact HNq.
Qed.

Lemma cell12_bars_total_witness :
  Forall (fun r => (0 <= qsofa r <= 3)%Z) cohort_demo /\
  In true (outcome_y cohort_demo) /\ In false (outcome_y cohort_demo) /\
  exists b0 b1 qs, cell12 cohort_demo = Ok (b0, b1) /\ b0 ++ b1 = map Num qs /\ qsum qs == 100.
Proof.
  split; [exact cohort_demo_qsofa|]. split; [now left|]. split; [right; right; now left|].
  apply cell12_bars_total; [exact cohort_demo_qsofa | now left | right; right; now left].
Defined.

(** ** X: the two qSOFA groups of cell 12 *)

(** The masks [~y] and [y] of cell 12 always apply, and together the
    selected groups [qsofa_alive] and [qsofa_dead] hold every qSOFA value
    of the cohort exactly once. *)
Theorem cell12_groups_partition (df : cohort) :
  exists alive dead,
    bool_index (map qsofa df) (map negb (outcome_y df)) = Ok alive /\
    bool_index (map qsofa df) (outcome_y df) = Ok dead /\
    Permutation (alive ++ dead) (map qsofa df).
Proof.
  exists (group df false), (group df true).
  rewrite mask_alive, mask_group. rewrite mask_dead, mask_group.
  split; [reflexivity|]. split; [reflexivity|].
  unfold group. induction df as [|r df IH]; [constructor|]. simpl.
  destruct (Z.eqb (angus r) 1); simpl.
  - apply Permutation_sym, Permutation_cons_app, Permutation_sym, IH.
  - constructor. exact IH.
Qed.

(** ** Lemmas: bounds of the pair count *)

Lemma pair_w_bounds p n : (0 <= pair_w p n <= 2)%Z.
Proof. unfold pair_w. destruct (Z.ltb _ _); [lia|]. destruct (Z.eqb _ _); lia. Qed.

Lemma inner_bounds l p : (0 <= inner l p <= 2 * Z.of_nat (negs l))%Z.
Proof.
  induction l as [|[z b] l IH]; [unfold inner; simpl; lia|].
  rewrite inner_cons, negs_cons. pose proof (pair_w_bounds p (z, b)).
  destruct b; cbn [snd]; lia.
Qed.

Lemma mw2_bounds l : (0 <= mw2 l <= 2 * Z.of_nat (poss l) * Z.of_nat (negs l))%Z.
Proof.
  unfold mw2.
  assert (H : forall m, (0 <= zsum (map (fun p : Z * bool => if snd p then inner l p else 0%Z) m)
                         <= 2 * Z.of_nat (poss m) * Z.of_nat (negs l))%Z).
  { induction m as [|[z b] m IH]; [simpl; lia|].
    cbn [map zsum]. rewrite poss_cons. pose proof (inner_bounds l (z, b)).
    destruct b; cbn [snd]; nia. }
  apply H.
Qed.

(** On a two-class truth vector, [roc_auc] is a number in [0, 1]. *)
Lemma roc_auc_unit (y : list bool) (s : list Z) :
  length s = length y -> In true y -> In false y ->
  exists a, roc_auc y s = Ok (Num a) /\ 0 <= a <= 1.
Proof.
  intros Hlen Hp Hn.
  pose proof (n_neg_pos y Hn) as HN. pose proof (n_pos_pos y Hp) as HP.
  destruct (roc_auc_mw2 y s Hlen Hp Hn) as [a [Ha Hae]].
  exists a. split; [exact Ha|]. rewrite Hae.
  pose proof (mw2_bounds (combine s y)) as Hb.
  rewrite (negs_combine s y Hlen), (poss_combine s y Hlen) in Hb.
  change (length (filter negb y)) with (n_neg y) in Hb.
  change (length (filter (fun b => b) y)) with (n_pos y) in Hb.
  assert (HD : 0 < inject_Z (2 * Z.of_nat (n_neg y) * Z.of_nat (n_pos y))).
  { change 0 with (inject_Z 0). rewrite <- Zlt_Qlt. nia. }
  split.
  - apply Qle_shift_div_l; [exact HD|]. rewrite Qmult_0_l.
    change 0 with (inject_Z 0). rewrite <- Zle_Qle. lia.
  - apply Qle_shift_div_r; [exact HD|]. rewrite Qmult_1_l.
    rewrite <- Zle_Qle. lia.
Qed.

(** ** X: the five AUCs of cell 9 *)

(** When the outcome has both classes, each of the five AUCs of cell 9
    (qSOFA, SOFA, the sepsis-3 rule, SIRS, LODS) is a number between 0
    and 1. *)
Theorem notebook_aucs_in_unit (df : cohort)
  (Hp : In true (outcome_y df)) (Hn : In false (outcome_y df)) :
  Forall (fun r => exists a, r = Ok (Num a) /\ 0 <= a <= 1) (nb_aucs (notebook df)).
Proof.
  assert (Hl : forall (f : cohort_row -> Z), length (map f df) = length (outcome_y df))
    by (intros f; rewrite length_map, outcome_y_length; reflexivity).
  destruct (yhat_length df) as [yh [Hy Hyl]].
  assert (Hl' : length (map b2z yh) = length (outcome_y df))
    by (rewrite length_map, outcome_y_length; exact Hyl).
  change (nb_aucs (notebook df))
    with [roc_auc (outcome_y df) (map qsofa df);
          roc_auc (outcome_y df) (map sofa df);
          bind (yhat df) (fun v => roc_auc (outcome_y df) (map b2z v));
          roc_auc (outcome_y df) (map sirs df);
          roc_auc (outcome_y df) (map lods df)].
  rewrite Hy. cbn [bind].
  repeat constructor; apply roc_auc_unit; auto.
Qed.

Lemma notebook_aucs_in_unit_witness :
  In true (outcome_y cohort_demo) /\ In false (outcome_y cohort_demo) /\
  Forall (fun r => exists a, r = Ok (Num a) /\ 0 <= a <= 1) (nb_aucs (notebook cohort_demo)).
Proof.
  split; [now left|]. split; [right; right; now left|].
  apply notebook_aucs_in_unit; [now left | right; right; now left].
Defined.

(** ** Lemmas: agreement of two boolean vectors *)

Lemma count_true_all (y p : list bool) :
  length y = length p ->
  (count_true (map (fun '(a, b) => Bool.eqb a b) (combine y p)) = length y <-> p = y).
Proof.
  unfold count_true.
  revert p; induction y as [|a y IH]; intros [|b p] H; simpl in H; try discriminate.
  - split; reflexivity.
  - injection H as H. simpl. destruct (Bool.eqb a b) eqn:E.
    + apply eqb_prop in E. subst b. simpl. split.
      * intros H'. f_equal. apply (IH p H). lia.
      * intros H'. injection H' as H'. apply (IH p H) in H'. lia.
    + split.
      * intros H'. exfalso.
        pose proof (filter_length_le (fun b0 : bool => b0)
                      (map (fun '(a0, b0) => Bool.eqb a0 b0) (combine y p))) as Hle.
        rewrite length_map, length_combine, H, Nat.min_id in Hle. lia.
      * intros H'. injection H' as -> _. rewrite eqb_reflx in E. discriminate.
Qed.

Lemma qdiv_one (c n : Z) : n <> 0%Z -> (inject_Z c / inject_Z n == 1 <-> c = n).
Proof.
  intros Hn. assert (Hq : ~ inject_Z n == 0).
  { intros E. apply (proj1 (inject_Z_injective _ 0)) in E. contradiction. }
  split.
  - intros H. apply inject_Z_injective.
    rewrite <- (Qmult_1_l (inject_Z n)), <- H. field. exact Hq.
  - intros ->. field. exact Hq.
Qed.

(** ** X: accuracy of cell 5 *)

(** For truth and prediction vectors of the same non-zero length,
    [accuracy_score] returns a number, and that number is 1 exactly when
    the prediction equals the truth at every position. *)
Theorem accuracy_score_one (y_true y_pred : list bool)
  (Hlen : length y_true = length y_pred) (Hne : y_true <> []) :
  exists a, accuracy_score y_true y_pred = Ok (Num a) /\ (a == 1 <-> y_pred = y_true).
Proof.
  unfold accuracy_score. rewrite Hlen, Nat.eqb_refl. simpl negb. cbv iota.
  unfold np_average.
  pose proof (count_true_all y_true y_pred Hlen) as Hc.
  rewrite length_map, length_combine, <- Hlen, Nat.min_id.
  destruct (length y_true) as [|n] eqn:El; [destruct y_true; [contradiction | discriminate]|].
  eexists. split; [reflexivity|].
  rewrite qdiv_one by lia. rewrite <- Hc. lia.
Qed.

Lemma accuracy_score_one_witness :
  length [true; false; true] = length [true; false; true] /\ [true; false; true] <> [] /\
  exists a, accuracy_score [true; false; true] [true; false; true] = Ok (Num a) /\
    (a == 1 <-> [true; false; true] = [true; false; true]).
Proof.
  split; [reflexivity|]. split; [discriminate|].
  apply accuracy_score_one; [reflexivity | discriminate].
Defined.

(** ** X: the normed histograms of cell 12 *)

(** For a non-empty array of values in 0..3, [plt.hist] with the bins
    [xi] and [normed=True] gives four numbers: the k-th is the share of
    the values equal to k, and the four add up to 1. *)
Theorem hist_normed_proportions (v : list Z)
  (Hv : Forall (fun x => (0 <= x <= 3)%Z) v) (Hne : v <> []) :
  exists qs, hist_normed v xi = map Num qs /\
    Forall2 (fun q k => q == inject_Z (Z.of_nat (value_count k v))
                             / inject_Z (Z.of_nat (length v))) qs [0; 1; 2; 3]%Z /\
    qsum qs == 1.
Proof.
  assert (HN : (0 < length v)%nat) by (destruct v; [contradiction | simpl; lia]).
  pose proof (inject_Z_nat_nz _ HN) as HNq.
  pose proof (hist_normed_03 v Hv Hne) as Hh.
  apply Forall2_four in Hh
    as [x0 [x1 [x2 [x3 [-> [[q0 [-> E0]] [[q1 [-> E1]] [[q2 [-> E2]] [q3 [-> E3]]]]]]]]]].
  exists [q0; q1; q2; q3]. split; [reflexivity|].
  split; [repeat constructor; assumption|].
  cbn [qsum fold_right]. rewrite E0, E1, E2, E3.
  pose proof (length_03 v Hv) as Hl.
  assert (HZ : Z.of_nat (length v)
               = (Z.of_nat (value_count 0 v) + Z.of_nat (value_count 1 v)
                  + Z.of_nat (value_count 2 v) + Z.of_nat (value_count 3 v))%Z) by lia.
  rewrite HZ in HNq |- *. rewrite !inject_Z_plus in HNq |- *.
  field. exact HNq.
Qed.

Lemma hist_normed_proportions_witness :
  Forall (fun x => (0 <= x <= 3)%Z) [2; 1; 1; 0]%Z /\ [2; 1; 1; 0]%Z <> [] /\
  exists qs, hist_normed [2; 1; 1; 0]%Z xi = map Num qs /\
    Forall2 (fun q k => q == inject_Z (Z.of_nat (value_count k [2; 1; 1; 0]%Z))
                             / inject_Z (Z.of_nat (length [2; 1; 1; 0]%Z))) qs [0; 1; 2; 3]%Z /\
    qsum qs == 1.
Proof.
  split; [repeat constructor; lia|]. split; [discriminate|].
  apply hist_normed_proportions; [repeat constructor; lia | discriminate].
Defined.
